(** * Amortization engine of PartA_Mortgage/mortgage.py

    Shallow embedding of class [MortgagePayment].  Python floats are
    modelled by real numbers (exact arithmetic); a Python exception
    (ZeroDivisionError) is [None] in the option monad below.  Python's
    [round(x, 2)] is rounding of [100 * x] to the nearest integer with
    ties to even, divided by 100. *)

From Stdlib Require Import ZArith Reals Psatz List String.
Import ListNotations.
Open Scope R_scope.

(** ** Error monad: [None] is a raised exception. *)
Notation "'let?' x ':=' a 'in' b" :=
  (match a with Some x => b | None => None end)
  (at level 200, x name, a at level 100, b at level 200).

(** Python true division [x / y] on floats: ZeroDivisionError on 0. *)
Definition fdiv (x y : R) : option R :=
  if Req_EM_T y 0 then None else Some (x / y).

(** Python [x ** y] for a float base [x >= 0]: a positive base is the real
    power; [0 ** y] is [0] for [y > 0], [1] for [y = 0] and raises
    ZeroDivisionError for [y < 0].  A negative base never occurs below
    (both bases are [(1 + j/2) ** 2] or a power of it). *)
Definition fpow (x y : R) : option R :=
  if Rlt_dec 0 x then Some (Rpower x y)
  else if Req_EM_T x 0 then
    (if Rlt_dec 0 y then Some 0
     else if Req_EM_T y 0 then Some 1 else None)
  else None.

(** Python [round(x, 2)]: nearest multiple of 0.01, ties to even. *)
Definition round_half_even (y : R) : Z :=
  let f := Int_part y in
  let d := y - IZR f in
  if Rlt_dec d (1/2) then f
  else if Rlt_dec (1/2) d then (f + 1)%Z
  else if Z.even f then f else (f + 1)%Z.

Definition round2 (x : R) : R := IZR (round_half_even (x * 100)) / 100.

(** ** [class MortgagePayment] *)
Record MortgagePayment := {
  quoted_rate_percent : R;
  amort_years : Z;
  term_years : Z
}.

(** [MortgagePayment.__init__]: no validation, [term_years] defaults to
    [amort_years]. *)
Definition MortgagePayment_init (q : R) (a : Z) (t : option Z) : MortgagePayment :=
  {| quoted_rate_percent := q;
     amort_years := a;
     term_years := match t with Some t => t | None => a end |}.

Definition _ear_from_semiannual (self : MortgagePayment) : R :=
  let j := quoted_rate_percent self / 100 in
  (1 + j / 2) ^ 2 - 1.

(** [1 / payments_per_year] raises on [payments_per_year = 0]. *)
Definition _periodic_rate (self : MortgagePayment) (payments_per_year : Z) : option R :=
  let ear := _ear_from_semiannual self in
  if Z.eqb payments_per_year 0 then None
  else let? p := fpow (1 + ear) (1 / IZR payments_per_year) in
       Some (p - 1).

Definition _annuity_payment (principal r : R) (n : Z) : option R :=
  if Req_EM_T r 0 then fdiv principal (IZR n)
  else let? p := fpow (1 + r) (- IZR n) in
       let? q := fdiv r (1 - p) in
       Some (principal * q).

(** The six amounts of [payments], in the order of the returned tuple. *)
Record PaymentSet := {
  monthly : R;
  semi_monthly : R;
  bi_weekly : R;
  weekly : R;
  accel_bi_weekly : R;
  accel_weekly : R
}.

Definition payments (self : MortgagePayment) (principal : R) : option PaymentSet :=
  let? r_m := _periodic_rate self 12 in
  let n_m := (amort_years self * 12)%Z in
  let? monthly := _annuity_payment principal r_m n_m in
  let? r_sm := _periodic_rate self 24 in
  let n_sm := (amort_years self * 24)%Z in
  let? semi_monthly := _annuity_payment principal r_sm n_sm in
  let? r_bw := _periodic_rate self 26 in
  let n_bw := (amort_years self * 26)%Z in
  let? bi_weekly := _annuity_payment principal r_bw n_bw in
  let? r_wk := _periodic_rate self 52 in
  let n_wk := (amort_years self * 52)%Z in
  let? weekly := _annuity_payment principal r_wk n_wk in
  let accel_bi_weekly := monthly / 2 in
  let accel_weekly := monthly / 4 in
  Some {| monthly := round2 monthly;
          semi_monthly := round2 semi_monthly;
          bi_weekly := round2 bi_weekly;
          weekly := round2 weekly;
          accel_bi_weekly := round2 accel_bi_weekly;
          accel_weekly := round2 accel_weekly |}.

(** ** [_schedule] *)
Record Row := {
  Period : Z;
  Starting_Balance : R;
  Interest : R;
  Payment : R;
  Ending_Balance : R
}.

(** One pass of the loop body from [start]: returns
    [(interest, principal_comp, pay_eff, bal)]. *)
Definition step (i payment_amount start : R) : R * R * R * R :=
  let interest := start * i in
  let principal_comp := payment_amount - interest in
  if Rlt_dec start principal_comp then
    (interest, start, interest + start, start - start)
  else (interest, principal_comp, payment_amount, start - principal_comp).

(** The dictionary appended for period [k]. *)
Definition emit (k : Z) (start : R) (s : R * R * R * R) : Row :=
  let '(interest, _, pay_eff, bal) := s in
  {| Period := k;
     Starting_Balance := round2 start;
     Interest := round2 interest;
     Payment := round2 pay_eff;
     Ending_Balance := round2 bal |}.

Definition eps : R := 1 / 1000000.

(** [while bal > 1e-6 and k < nmax + 2]; [fuel] only makes the recursion
    structural: the loop starts with [fuel = nmax + 2] and [k = 0]. *)
Fixpoint schedule_loop (fuel : nat) (i payment_amount : R) (nmax k : Z) (bal : R)
  : list Row :=
  match fuel with
  | O => []
  | S fuel' =>
      if Rlt_dec eps bal then
        if Z.ltb k (nmax + 2) then
          let k' := (k + 1)%Z in
          let start := bal in
          let s := step i payment_amount start in
          emit k' start s :: schedule_loop fuel' i payment_amount nmax k' (snd s)
        else []
      else []
  end.

Definition _schedule (self : MortgagePayment) (principal : R) (payments_per_year : Z)
    (payment_amount : R) (years_limit : Z) : option (list Row) :=
  let? i := _periodic_rate self payments_per_year in
  let limit_years := Z.max 1 (Z.min years_limit (amort_years self)) in
  let nmax := (limit_years * payments_per_year)%Z in
  let bal := principal in
  Some (schedule_loop (Z.to_nat (nmax + 2)) i payment_amount nmax 0 bal).

(** [schedules]: the dictionary as an association list in insertion order. *)
Definition schedules (self : MortgagePayment) (principal : R) (years : option Z)
  : option (list (string * list Row)) :=
  let years_limit := match years with Some y => y | None => term_years self end in
  let years_limit := Z.max 1 (Z.min years_limit (amort_years self)) in
  let? ps := payments self principal in
  let? s1 := _schedule self principal 12 (monthly ps) years_limit in
  let? s2 := _schedule self principal 24 (semi_monthly ps) years_limit in
  let? s3 := _schedule self principal 26 (bi_weekly ps) years_limit in
  let? s4 := _schedule self principal 52 (weekly ps) years_limit in
  let? s5 := _schedule self principal 26 (accel_bi_weekly ps) years_limit in
  let? s6 := _schedule self principal 52 (accel_weekly ps) years_limit in
  Some [("monthly", s1); ("semi-monthly", s2); ("bi-weekly", s3);
        ("weekly", s4); ("accelerated bi-weekly", s5); ("accelerated weekly", s6)]%string.

(** The schedule stored under [name] in the result of [schedules]. *)
Definition lookup_schedule (name : string) (d : list (string * list Row))
  : option (list Row) :=
  match find (fun p => String.eqb (fst p) name) d with
  | Some (_, rows) => Some rows
  | None => None
  end.

(** Balance after [j] passes of the loop body (ignoring the loop guard). *)
Definition bal_iter (i payment_amount : R) (j : nat) (b : R) : R :=
  Nat.iter j (fun b => snd (step i payment_amount b)) b.

(** [n] consecutive rows emitted from period [k + 1] on, starting at [b]. *)
Fixpoint rows_from (i payment_amount : R) (n : nat) (k : Z) (b : R) : list Row :=
  match n with
  | O => []
  | S n' => emit (k + 1) b (step i payment_amount b)
              :: rows_from i payment_amount n' (k + 1) (snd (step i payment_amount b))
  end.

Definition row0 : Row :=
  {| Period := 0; Starting_Balance := 0; Interest := 0; Payment := 0;
     Ending_Balance := 0 |}.

(** Every row of [rows] but the last one pays exactly [d]. *)
Definition pays_disclosed (d : R) (rows : list Row) : Prop :=
  forall j, (S j < List.length rows)%nat -> Payment (nth j rows row0) = d.

(** The two loans used below: 300000 at a quoted 5% over 25 years, and a
    quoted 154.3122% over 25 years, whose monthly rate is exactly 10%. *)
Definition loan_5pct : MortgagePayment := MortgagePayment_init 5 25 None.


(** ** [mortgage_main.run_mortgage]: the outstanding balance it prints

    Lines 28-41: [calc = MortgagePayment(rate, amort_years, term)], then
    [calc.payments(principal)], then [calc.schedules(principal, years=term)]
    and [schedules["monthly"]["Ending Balance"].iloc[-1]].  An empty
    schedule is [pd.DataFrame([])], which has no columns: selecting
    ["Ending Balance"] raises (KeyError), as [iloc[-1]] would (IndexError). *)
Definition monthly_term_balance (sch : list (string * list Row)) : option R :=
  let? rows := lookup_schedule "monthly" sch in
  match rows with
  | [] => None
  | _ :: _ => Some (Ending_Balance (last rows row0))
  end.

Definition run_mortgage_term_balance (principal rate : R) (amort term : Z) : option R :=
  let calc := MortgagePayment_init rate amort (Some term) in
  let? _ := payments calc principal in
  let? sch := schedules calc principal (Some term) in
  monthly_term_balance sch.

(** * Rounding *)

Lemma Int_part_unique (y : R) (z : Z) :
  IZR z <= y -> y < IZR z + 1 -> Int_part y = z.
Proof.
  intros H1 H2. unfold Int_part.
  assert (Hup : (z + 1)%Z = up y).
  { apply tech_up; rewrite plus_IZR; lra. }
  lia.
Qed.

Lemma round_half_even_near (y : R) (z : Z) :
  IZR z - 1/2 < y < IZR z + 1/2 -> round_half_even y = z.
Proof.
  intros [H1 H2]. unfold round_half_even.
  destruct (Rle_lt_dec (IZR z) y) as [Hle | Hlt].
  - rewrite (Int_part_unique y z) by lra.
    destruct (Rlt_dec (y - IZR z) (1/2)); [reflexivity | lra].
  - rewrite (Int_part_unique y (z - 1)) by (rewrite minus_IZR; lra).
    rewrite minus_IZR.
    destruct (Rlt_dec (y - (IZR z - 1)) (1/2)); [lra |].
    destruct (Rlt_dec (1/2) (y - (IZR z - 1))); [lia | lra].
Qed.

Lemma round2_near (x : R) (z : Z) :
  IZR z - 1/2 < x * 100 < IZR z + 1/2 -> round2 x = IZR z / 100.
Proof.
  intros H. unfold round2. now rewrite (round_half_even_near _ z H).
Qed.

Lemma round2_cents (z : Z) : round2 (IZR z / 100) = IZR z / 100.
Proof.
  apply round2_near.
  replace (IZR z / 100 * 100) with (IZR z) by field. lra.
Qed.

Lemma round2_idem (x : R) : round2 (round2 x) = round2 x.
Proof. unfold round2 at 2. apply round2_cents. Qed.

Lemma round2_0 : round2 0 = 0.
Proof.
  rewrite (round2_near 0 0); [lra | lra].
Qed.

Lemma round_half_even_ge_floor (y : R) : (Int_part y <= round_half_even y)%Z.
Proof.
  unfold round_half_even.
  destruct (Rlt_dec _ _); [lia |].
  destruct (Rlt_dec _ _); [lia |].
  destruct (Z.even _); lia.
Qed.

Lemma round2_nonneg (x : R) : 0 <= x -> 0 <= round2 x.
Proof.
  intros Hx. unfold round2.
  pose proof (base_Int_part (x * 100)) as [_ H].
  assert (Hf : (0 <= Int_part (x * 100))%Z).
  { assert (IZR (-1) < IZR (Int_part (x * 100))) by lra.
    apply lt_IZR in H0. lia. }
  pose proof (round_half_even_ge_floor (x * 100)).
  apply Rmult_le_pos; [apply IZR_le; lia | lra].
Qed.

Lemma round2_IZR (z : Z) : round2 (IZR z) = IZR z.
Proof.
  replace (IZR z) with (IZR (z * 100) / 100) at 1
    by (rewrite mult_IZR; field).
  rewrite round2_cents, mult_IZR. field.
Qed.

(** * The schedule loop *)

Section Loop.
Variables (i payment_amount : R) (nmax : Z).

Let next (b : R) : R := snd (step i payment_amount b).

Lemma bal_iter_S (j : nat) (b : R) :
  bal_iter i payment_amount (S j) b = bal_iter i payment_amount j (next b).
Proof.
  unfold bal_iter. revert b. induction j as [|j IH]; intros b; [reflexivity|].
  simpl in *. now rewrite <- IH.
Qed.

Lemma bal_iter_S_r (j : nat) (b : R) :
  bal_iter i payment_amount (S j) b = next (bal_iter i payment_amount j b).
Proof. reflexivity. Qed.

Lemma rows_from_length (n : nat) (k : Z) (b : R) :
  List.length (rows_from i payment_amount n k b) = n.
Proof.
  revert k b. induction n as [|n IH]; intros k b; simpl; [reflexivity|].
  now rewrite IH.
Qed.

Lemma schedule_loop_stop_bal (fuel : nat) (k : Z) (b : R) :
  b <= eps -> schedule_loop fuel i payment_amount nmax k b = [].
Proof.
  intros H. destruct fuel; simpl; [reflexivity|].
  destruct (Rlt_dec eps b); [lra | reflexivity].
Qed.

Lemma schedule_loop_stop_cap (fuel : nat) (k : Z) (b : R) :
  (nmax + 2 <= k)%Z -> schedule_loop fuel i payment_amount nmax k b = [].
Proof.
  intros H. destruct fuel; simpl; [reflexivity|].
  destruct (Rlt_dec eps b); [|reflexivity].
  replace (Z.ltb k (nmax + 2)) with false by (symmetry; apply Z.ltb_ge; lia).
  reflexivity.
Qed.

(** Running the loop for [n] passes whose guard holds. *)
Lemma schedule_loop_prefix (n fuel : nat) (k : Z) (b : R) :
  (n <= fuel)%nat ->
  (k + Z.of_nat n <= nmax + 2)%Z ->
  (forall j, (j < n)%nat -> eps < bal_iter i payment_amount j b) ->
  schedule_loop fuel i payment_amount nmax k b =
    app (rows_from i payment_amount n k b)
      (schedule_loop (fuel - n) i payment_amount nmax (k + Z.of_nat n)
         (bal_iter i payment_amount n b)).
Proof.
  revert fuel k b. induction n as [|n IH]; intros fuel k b Hf Hk Hb.
  - simpl. rewrite Nat.sub_0_r, Z.add_0_r. reflexivity.
  - destruct fuel as [|fuel]; [lia|].
    simpl.
    destruct (Rlt_dec eps b) as [Heps|Heps].
    2:{ exfalso. apply Heps. apply (Hb 0%nat). lia. }
    replace (Z.ltb k (nmax + 2)) with true by (symmetry; apply Z.ltb_lt; lia).
    f_equal.
    change (snd (step i payment_amount (bal_iter i payment_amount n b)))
      with (bal_iter i payment_amount (S n) b).
    rewrite bal_iter_S.
    replace (k + Z.pos (Pos.of_succ_nat n))%Z with (k + 1 + Z.of_nat n)%Z by lia.
    apply IH; [lia | lia |].
    intros j Hj. change (snd (step i payment_amount b)) with (next b).
    rewrite <- bal_iter_S. apply Hb. lia.
Qed.

(** The loop never runs more than [nmax + 2 - k] passes. *)
Lemma schedule_loop_length (fuel : nat) (k : Z) (b : R) :
  (List.length (schedule_loop fuel i payment_amount nmax k b) <= Z.to_nat (nmax + 2 - k))%nat.
Proof.
  revert k b. induction fuel as [|fuel IH]; intros k b; simpl; [lia|].
  destruct (Rlt_dec eps b); [|simpl; lia].
  destruct (Z.ltb k (nmax + 2)) eqn:E; [|simpl; lia].
  apply Z.ltb_lt in E. simpl.
  specialize (IH (k + 1)%Z (snd (step i payment_amount b))). lia.
Qed.

Lemma schedule_loop_periods (fuel : nat) (k : Z) (b : R) (j : nat) :
  (j < List.length (schedule_loop fuel i payment_amount nmax k b))%nat ->
  Period (nth j (schedule_loop fuel i payment_amount nmax k b) row0) = (k + 1 + Z.of_nat j)%Z.
Proof.
  revert k b j. induction fuel as [|fuel IH]; intros k b j Hj; simpl in *; [lia|].
  destruct (Rlt_dec eps b); [|simpl in Hj; lia].
  destruct (Z.ltb k (nmax + 2)); [|simpl in Hj; lia].
  destruct j as [|j]; simpl in *.
  - unfold emit. destruct (step _ _ _) as [[[? ?] ?] ?]. simpl. lia.
  - rewrite IH by lia. lia.
Qed.

End Loop.

Lemma emit_Period (k : Z) (b : R) (s : R * R * R * R) : Period (emit k b s) = k.
Proof. destruct s as [[[? ?] ?] ?]. reflexivity. Qed.

Lemma emit_Ending (k : Z) (b : R) (s : R * R * R * R) :
  Ending_Balance (emit k b s) = round2 (snd s).
Proof. destruct s as [[[? ?] ?] ?]. reflexivity. Qed.

Lemma emit_Payment (k : Z) (b : R) (s : R * R * R * R) :
  Payment (emit k b s) = round2 (snd (fst s)).
Proof. destruct s as [[[? ?] ?] ?]. reflexivity. Qed.

Lemma emit_Starting (k : Z) (b : R) (s : R * R * R * R) :
  Starting_Balance (emit k b s) = round2 b.
Proof. destruct s as [[[? ?] ?] ?]. reflexivity. Qed.

Lemma rows_from_last (i pay : R) (n : nat) (k : Z) (b : R) :
  (0 < n)%nat ->
  last (rows_from i pay n k b) row0 =
    emit (k + Z.of_nat n) (bal_iter i pay (n - 1) b)
      (step i pay (bal_iter i pay (n - 1) b)).
Proof.
  revert k b. induction n as [|n IH]; intros k b Hn; [lia|].
  destruct n as [|n].
  - simpl. replace (k + 1)%Z with (k + Z.of_nat 1)%Z by reflexivity. reflexivity.
  - assert (E : last (rows_from i pay (S (S n)) k b) row0 =
                 last (rows_from i pay (S n) (k + 1) (snd (step i pay b))) row0)
      by reflexivity.
    rewrite E, IH by lia.
    replace (S (S n) - 1)%nat with (S (S n - 1))%nat by lia.
    rewrite bal_iter_S. f_equal. lia.
Qed.

(** * Rates and payments *)

Lemma Rpower_base_1 (y : R) : Rpower 1 y = 1.
Proof. unfold Rpower. rewrite ln_1, Rmult_0_r. apply exp_0. Qed.

Lemma periodic_rate_zero (self : MortgagePayment) (ppy : Z) :
  quoted_rate_percent self = 0 -> ppy <> 0%Z -> _periodic_rate self ppy = Some 0.
Proof.
  intros Hq Hp. unfold _periodic_rate, _ear_from_semiannual. rewrite Hq.
  replace (Z.eqb ppy 0) with false by (symmetry; apply Z.eqb_neq; exact Hp).
  replace (1 + ((1 + 0 / 100 / 2) ^ 2 - 1)) with 1 by field.
  unfold fpow. destruct (Rlt_dec 0 1); [|lra].
  rewrite Rpower_base_1. f_equal. ring.
Qed.

Lemma annuity_payment_zero (principal : R) (n : Z) :
  n <> 0%Z -> _annuity_payment principal 0 n = Some (principal / IZR n).
Proof.
  intros Hn. unfold _annuity_payment, fdiv.
  destruct (Req_EM_T 0 0); [|congruence].
  destruct (Req_EM_T (IZR n) 0) as [E|]; [|reflexivity].
  apply eq_IZR in E. congruence.
Qed.

Lemma payments_rate_zero (self : MortgagePayment) (principal : R) :
  quoted_rate_percent self = 0 -> amort_years self <> 0%Z ->
  payments self principal =
    Some {| monthly := round2 (principal / IZR (amort_years self * 12));
            semi_monthly := round2 (principal / IZR (amort_years self * 24));
            bi_weekly := round2 (principal / IZR (amort_years self * 26));
            weekly := round2 (principal / IZR (amort_years self * 52));
            accel_bi_weekly := round2 (principal / IZR (amort_years self * 12) / 2);
            accel_weekly := round2 (principal / IZR (amort_years self * 12) / 4) |}.
Proof.
  intros Hq Ha. unfold payments.
  rewrite !periodic_rate_zero by (auto; lia).
  rewrite !annuity_payment_zero by lia.
  reflexivity.
Qed.

(** [schedules] once the payment set and the four periodic rates are known. *)
Lemma schedules_unfold (self : MortgagePayment) (principal : R) (years : option Z)
    (ps : PaymentSet) (r12 r24 r26 r52 : R) :
  payments self principal = Some ps ->
  _periodic_rate self 12 = Some r12 -> _periodic_rate self 24 = Some r24 ->
  _periodic_rate self 26 = Some r26 -> _periodic_rate self 52 = Some r52 ->
  let yl := Z.max 1 (Z.min (match years with Some y => y | None => term_years self end)
                           (amort_years self)) in
  let lim := Z.max 1 (Z.min yl (amort_years self)) in
  let sch ppy r pay :=
    schedule_loop (Z.to_nat (lim * ppy + 2)) r pay (lim * ppy) 0 principal in
  schedules self principal years =
    Some [("monthly", sch 12%Z r12 (monthly ps));
          ("semi-monthly", sch 24%Z r24 (semi_monthly ps));
          ("bi-weekly", sch 26%Z r26 (bi_weekly ps));
          ("weekly", sch 52%Z r52 (weekly ps));
          ("accelerated bi-weekly", sch 26%Z r26 (accel_bi_weekly ps));
          ("accelerated weekly", sch 52%Z r52 (accel_weekly ps))]%string.
Proof.
  intros Hp H12 H24 H26 H52. unfold schedules, _schedule.
  rewrite Hp, H12, H24, H26, H52. reflexivity.
Qed.

(** Straight-line balances at a zero rate, before the final clamp. *)
Lemma bal_iter_rate_zero (pay b : R) (j : nat) :
  0 <= pay -> 0 <= b - INR j * pay ->
  bal_iter 0 pay j b = b - INR j * pay.
Proof.
  intros Hp. induction j as [|j IH]; intros Hj.
  - simpl. ring.
  - rewrite S_INR in Hj. rewrite bal_iter_S_r, IH by nra.
    unfold step. rewrite Rmult_0_r, Rminus_0_r.
    rewrite S_INR. destruct (Rlt_dec _ _); [lra|]. cbn [snd]. ring.
Qed.

(** A zero-rate run that is stopped by the iteration cap. *)
Lemma schedule_loop_rate_zero_cap (fuel : nat) (pay b : R) (n : nat) (nmax : Z) :
  fuel = Z.to_nat (nmax + 2) ->
  0 <= pay -> Z.of_nat n = (nmax + 2)%Z -> eps < b - (INR n - 1) * pay ->
  schedule_loop fuel 0 pay nmax 0 b = rows_from 0 pay n 0 b.
Proof.
  intros -> Hp Hn Hb.
  rewrite (schedule_loop_prefix 0 pay nmax n); [| lia | lia |].
  2:{ intros j Hj.
      assert (INR j + 1 <= INR n) by (rewrite <- S_INR; apply le_INR; lia).
      unfold eps in *. rewrite bal_iter_rate_zero by nra. nra. }
  replace (Z.to_nat (nmax + 2) - n)%nat with O by lia.
  apply app_nil_r.
Qed.

Lemma rows_from_rate_zero_last_ending (pay b : R) (n : nat) :
  0 <= pay -> (0 < n)%nat -> 0 <= b - INR n * pay ->
  Ending_Balance (last (rows_from 0 pay n 0 b) row0) = round2 (b - INR n * pay).
Proof.
  intros Hp Hn Hb.
  rewrite rows_from_last, emit_Ending by exact Hn.
  rewrite <- bal_iter_S_r.
  replace (S (n - 1)) with n by lia.
  now rewrite bal_iter_rate_zero.
Qed.

Lemma rows_from_last_period (i pay : R) (n : nat) (k : Z) (b : R) :
  (0 < n)%nat -> Period (last (rows_from i pay n k b) row0) = (k + Z.of_nat n)%Z.
Proof.
  intros Hn. rewrite rows_from_last by exact Hn. apply emit_Period.
Qed.

(** The monthly entry of [schedules], once its inputs are known. *)
Lemma schedules_monthly (self : MortgagePayment) (principal : R) (years : option Z)
    (ps : PaymentSet) (r12 r24 r26 r52 : R) :
  payments self principal = Some ps ->
  _periodic_rate self 12 = Some r12 -> _periodic_rate self 24 = Some r24 ->
  _periodic_rate self 26 = Some r26 -> _periodic_rate self 52 = Some r52 ->
  exists sch, schedules self principal years = Some sch /\
    lookup_schedule "monthly" sch =
      Some (let yl := Z.max 1 (Z.min (match years with Some y => y
                                                   | None => term_years self end)
                                     (amort_years self)) in
            let lim := Z.max 1 (Z.min yl (amort_years self)) in
            schedule_loop (Z.to_nat (lim * 12 + 2)) r12 (monthly ps) (lim * 12) 0
              principal).
Proof.
  intros Hp H12 H24 H26 H52.
  rewrite (schedules_unfold self principal years ps r12 r24 r26 r52 Hp H12 H24 H26 H52).
  eexists. split; reflexivity.
Qed.

(** Zero rate, principal 1, 25 years: the disclosed monthly payment is 0.00
    and the balance never moves; the cap stops the loop after 302 rows. *)
Lemma rate_zero_unit_loan_monthly :
  exists sch rows,
    schedules (MortgagePayment_init 0 25 None) 1 None = Some sch /\
    lookup_schedule "monthly" sch = Some rows /\
    List.length rows = 302%nat /\ Ending_Balance (last rows row0) = 1.
Proof.
  set (m := MortgagePayment_init 0 25 None).
  assert (Hq : quoted_rate_percent m = 0) by reflexivity.
  assert (Ha : amort_years m <> 0%Z) by discriminate.
  destruct (schedules_monthly m 1 None _ 0 0 0 0 (payments_rate_zero m 1 Hq Ha))
    as [sch [Hs Hl]]; try (apply periodic_rate_zero; [exact Hq | discriminate]).
  exists sch. eexists. split; [exact Hs|]. split; [exact Hl|].
  cbv zeta. cbn [monthly].
  assert (Hpay : round2 (1 / IZR (amort_years m * 12)) = 0).
  { rewrite (round2_near _ 0); [lra|]. simpl. lra. }
  rewrite Hpay.
  rewrite (schedule_loop_rate_zero_cap _ 0 1 302); [| reflexivity | lra | reflexivity |].
  2:{ unfold eps. lra. }
  split; [apply rows_from_length|].
  rewrite rows_from_rate_zero_last_ending by (try lia; lra).
  replace (1 - INR 302 * 0) with (IZR 1) by ring. apply round2_IZR.
Qed.

(** Every emitted row is the row of one pass from a balance above [eps]. *)
Lemma schedule_loop_In (i pay : R) (nmax : Z) (fuel : nat) (k : Z) (b : R) (r : Row) :
  In r (schedule_loop fuel i pay nmax k b) ->
  exists k' start, eps < start /\ r = emit k' start (step i pay start).
Proof.
  revert k b. induction fuel as [|fuel IH]; intros k b H; simpl in H; [contradiction|].
  destruct (Rlt_dec eps b) as [Hb|]; [|contradiction].
  destruct (Z.ltb k (nmax + 2)); [|contradiction].
  destruct H as [<- | H].
  - now exists (k + 1)%Z, b.
  - now apply IH in H.
Qed.

(** For a positive frequency the periodic rate is always defined. *)
Lemma periodic_rate_defined (self : MortgagePayment) (ppy : Z) :
  (0 < ppy)%Z -> exists i, _periodic_rate self ppy = Some i.
Proof.
  intros Hp. unfold _periodic_rate.
  replace (Z.eqb ppy 0) with false by (symmetry; apply Z.eqb_neq; lia).
  unfold fpow.
  destruct (Rlt_dec 0 _); [eexists; reflexivity|].
  destruct (Req_EM_T _ 0) as [E|E].
  - destruct (Rlt_dec 0 (1 / IZR ppy)) as [|Hn]; [eexists; reflexivity|].
    exfalso. apply Hn. apply IZR_lt in Hp.
    unfold Rdiv. rewrite Rmult_1_l. now apply Rinv_0_lt_compat.
  - exfalso. unfold _ear_from_semiannual in *.
    assert (0 <= (1 + quoted_rate_percent self / 100 / 2) ^ 2) by apply pow2_ge_0.
    lra.
Qed.

Lemma schedule_defined (self : MortgagePayment) (principal : R) (ppy : Z)
    (payment_amount : R) (years_limit : Z) :
  (0 < ppy)%Z -> exists i, _periodic_rate self ppy = Some i /\
    _schedule self principal ppy payment_amount years_limit =
      Some (let limit_years := Z.max 1 (Z.min years_limit (amort_years self)) in
            schedule_loop (Z.to_nat (limit_years * ppy + 2)) i payment_amount
              (limit_years * ppy) 0 principal).
Proof.
  intros Hp. destruct (periodic_rate_defined self ppy Hp) as [i Hi].
  exists i. split; [exact Hi|]. unfold _schedule. now rewrite Hi.
Qed.

(** A pass that clamps pays the balance off, so only the last row can. *)
Lemma schedule_loop_payment_not_last (i pay : R) (nmax : Z) (fuel : nat) (k : Z) (b : R)
    (j : nat) :
  (S j < List.length (schedule_loop fuel i pay nmax k b))%nat ->
  Payment (nth j (schedule_loop fuel i pay nmax k b) row0) = round2 pay.
Proof.
  revert k b j. induction fuel as [|fuel IH]; intros k b j Hj;
    cbn [schedule_loop] in *; [simpl in Hj; lia|].
  destruct (Rlt_dec eps b) as [Hb|]; [|simpl in Hj; lia].
  destruct (Z.ltb k (nmax + 2)); [|simpl in Hj; lia].
  cbn [List.length] in Hj. destruct j as [|j]; cbn [nth].
  - rewrite emit_Payment.
    destruct (Rle_lt_dec (snd (step i pay b)) eps) as [Hs|Hs].
    { rewrite schedule_loop_stop_bal in Hj by exact Hs. simpl in Hj. lia. }
    unfold step in *. destruct (Rlt_dec b (pay - b * i)); simpl in *; [|reflexivity].
    unfold eps in Hs. lra.
  - apply IH. lia.
Qed.

Lemma pays_disclosed_loop (i x : R) (nmax : Z) (fuel : nat) (k : Z) (b : R) :
  pays_disclosed (round2 x) (schedule_loop fuel i (round2 x) nmax k b).
Proof.
  intros j Hj. rewrite schedule_loop_payment_not_last by exact Hj.
  apply round2_idem.
Qed.

(** Compounding the periodic rate [n] times gives back [1 + EAR]. *)
Lemma Rpower_root_pow (x : R) (n : nat) :
  0 < x -> (0 < n)%nat -> Rpower x (1 / INR n) ^ n = x.
Proof.
  intros Hx Hn.
  rewrite <- Rpower_pow by apply exp_pos.
  rewrite Rpower_mult.
  replace (1 / INR n * INR n) with 1
    by (field; apply not_0_INR; lia).
  now apply Rpower_1.
Qed.

(** The six entries of a payment set are rounded amounts, and the monthly one
    is the rounded annuity payment at the unrounded monthly rate. *)
Lemma payments_rounded (self : MortgagePayment) (principal : R) (ps : PaymentSet) :
  payments self principal = Some ps ->
  exists r12 x1 x2 x3 x4,
    _periodic_rate self 12 = Some r12 /\
    _annuity_payment principal r12 (amort_years self * 12) = Some x1 /\
    ps = {| monthly := round2 x1; semi_monthly := round2 x2; bi_weekly := round2 x3;
            weekly := round2 x4; accel_bi_weekly := round2 (x1 / 2);
            accel_weekly := round2 (x1 / 4) |}.
Proof.
  unfold payments. intros H.
  destruct (_periodic_rate self 12) as [r12|] eqn:E12; [|discriminate].
  destruct (_annuity_payment principal r12 _) as [x1|] eqn:E1; [|discriminate].
  destruct (_periodic_rate self 24) as [r24|]; [|discriminate].
  destruct (_annuity_payment principal r24 _) as [x2|]; [|discriminate].
  destruct (_periodic_rate self 26) as [r26|]; [|discriminate].
  destruct (_annuity_payment principal r26 _) as [x3|]; [|discriminate].
  destruct (_periodic_rate self 52) as [r52|]; [|discriminate].
  destruct (_annuity_payment principal r52 _) as [x4|]; [|discriminate].
  injection H as <-. now exists r12, x1, x2, x3, x4.
Qed.

(** Zero rate, principal 1, payment 2: one row, which clamps. *)
Lemma rate_zero_one_clamped_row :
  _schedule (MortgagePayment_init 0 25 None) 1 12 2 25 =
    Some [emit 1 1 (step 0 2 1)].
Proof.
  unfold _schedule. rewrite periodic_rate_zero; [| reflexivity | discriminate].
  cbv zeta. f_equal.
  rewrite (schedule_loop_prefix 0 2 _ 1); [| simpl; lia | simpl; lia |].
  2:{ intros j Hj. replace j with O by lia. simpl. unfold eps. lra. }
  rewrite schedule_loop_stop_bal.
  2:{ simpl. unfold step. destruct (Rlt_dec 1 (2 - 1 * 0)); simpl; unfold eps; lra. }
  reflexivity.
Qed.

(** * When the computations raise *)

Lemma payments_rates (self : MortgagePayment) (principal : R) (ps : PaymentSet) :
  payments self principal = Some ps ->
  exists r12 r24 r26 r52,
    _periodic_rate self 12 = Some r12 /\ _periodic_rate self 24 = Some r24 /\
    _periodic_rate self 26 = Some r26 /\ _periodic_rate self 52 = Some r52.
Proof.
  unfold payments. intros H.
  destruct (_periodic_rate self 12) as [r12|]; [|discriminate].
  destruct (_annuity_payment principal r12 _); [|discriminate].
  destruct (_periodic_rate self 24) as [r24|]; [|discriminate].
  destruct (_annuity_payment principal r24 _); [|discriminate].
  destruct (_periodic_rate self 26) as [r26|]; [|discriminate].
  destruct (_annuity_payment principal r26 _); [|discriminate].
  destruct (_periodic_rate self 52) as [r52|]; [|discriminate].
  now exists r12, r24, r26, r52.
Qed.

(** [schedules] raises exactly when [payments] does. *)
Lemma schedules_none_iff (self : MortgagePayment) (principal : R) (years : option Z) :
  schedules self principal years = None <-> payments self principal = None.
Proof.
  split.
  - intros H. destruct (payments self principal) as [ps|] eqn:Hp; [|reflexivity].
    destruct (payments_rates self principal ps Hp) as [r12 [r24 [r26 [r52 [H1 [H2 [H3 H4]]]]]]].
    rewrite (schedules_unfold self principal years ps r12 r24 r26 r52 Hp H1 H2 H3 H4) in H.
    discriminate.
  - intros H. unfold schedules. now rewrite H.
Qed.

(** With [n = 0] payments, [_annuity_payment] divides by zero. *)
Lemma annuity_payment_n_zero (principal r : R) : _annuity_payment principal r 0 = None.
Proof.
  unfold _annuity_payment, fdiv.
  destruct (Req_EM_T r 0).
  - destruct (Req_EM_T (IZR 0) 0); [reflexivity | contradiction].
  - rewrite Ropp_0. unfold fpow.
    destruct (Rlt_dec 0 (1 + r)).
    + rewrite Rpower_O by assumption.
      destruct (Req_EM_T (1 - 1) 0); [reflexivity | lra].
    + destruct (Req_EM_T (1 + r) 0); [|reflexivity].
      destruct (Rlt_dec 0 0); [lra|].
      destruct (Req_EM_T 0 0); [|contradiction].
      destruct (Req_EM_T (1 - 1) 0); [reflexivity | lra].
Qed.

Lemma payments_amort_zero (self : MortgagePayment) (principal : R) :
  amort_years self = 0%Z -> payments self principal = None.
Proof.
  intros Ha. unfold payments. rewrite Ha.
  destruct (_periodic_rate self 12) as [r|]; [|reflexivity].
  now rewrite annuity_payment_n_zero.
Qed.

Lemma Rpower_eq_1 (x y : R) : 0 < x -> y <> 0 -> Rpower x y = 1 -> x = 1.
Proof.
  intros Hx Hy H. unfold Rpower in H. rewrite <- exp_0 in H.
  apply exp_inv in H.
  assert (Hl : ln x = 0).
  { destruct (Rmult_integral _ _ H); [contradiction | assumption]. }
  rewrite <- (exp_ln x Hx), Hl. apply exp_0.
Qed.

(** A rate above -100% and a non-zero period count: no division by zero. *)
Lemma annuity_payment_defined (principal r : R) (n : Z) :
  -1 < r -> n <> 0%Z -> exists a, _annuity_payment principal r n = Some a.
Proof.
  intros Hr Hn. unfold _annuity_payment, fdiv.
  destruct (Req_EM_T r 0).
  - destruct (Req_EM_T (IZR n) 0) as [E|]; [|eexists; reflexivity].
    apply eq_IZR in E. contradiction.
  - unfold fpow. destruct (Rlt_dec 0 (1 + r)); [|lra].
    destruct (Req_EM_T (1 - Rpower (1 + r) (- IZR n)) 0) as [E|];
      [|eexists; reflexivity].
    exfalso. apply n0.
    assert (Rpower (1 + r) (- IZR n) = 1) by lra.
    apply Rpower_eq_1 in H; [lra | lra |].
    intros E'. apply Hn. apply eq_IZR. lra.
Qed.

Lemma periodic_rate_gt (self : MortgagePayment) (ppy : Z) :
  quoted_rate_percent self <> -200 -> ppy <> 0%Z ->
  exists i, _periodic_rate self ppy = Some i /\ -1 < i.
Proof.
  intros Hq Hp. unfold _periodic_rate.
  replace (Z.eqb ppy 0) with false by (symmetry; apply Z.eqb_neq; exact Hp).
  assert (Hx : 0 < 1 + _ear_from_semiannual self).
  { unfold _ear_from_semiannual.
    assert (1 + quoted_rate_percent self / 100 / 2 <> 0) by (intros E; apply Hq; lra).
    assert (0 < (1 + quoted_rate_percent self / 100 / 2) ^ 2).
    { rewrite <- Rsqr_pow2. now apply Rsqr_pos_lt. }
    lra. }
  unfold fpow. destruct (Rlt_dec 0 _); [|lra].
  eexists. split; [reflexivity|]. pose proof (exp_pos ((1 / IZR ppy) * ln (1 + _ear_from_semiannual self))).
  unfold Rpower. lra.
Qed.

Lemma payments_defined (self : MortgagePayment) (principal : R) :
  quoted_rate_percent self <> -200 -> amort_years self <> 0%Z ->
  exists ps, payments self principal = Some ps.
Proof.
  intros Hq Ha. unfold payments.
  destruct (periodic_rate_gt self 12 Hq ltac:(discriminate)) as [r1 [-> H1]].
  destruct (annuity_payment_defined principal r1 (amort_years self * 12) H1 ltac:(lia))
    as [a1 ->].
  destruct (periodic_rate_gt self 24 Hq ltac:(discriminate)) as [r2 [-> H2]].
  destruct (annuity_payment_defined principal r2 (amort_years self * 24) H2 ltac:(lia))
    as [a2 ->].
  destruct (periodic_rate_gt self 26 Hq ltac:(discriminate)) as [r3 [-> H3]].
  destruct (annuity_payment_defined principal r3 (amort_years self * 26) H3 ltac:(lia))
    as [a3 ->].
  destruct (periodic_rate_gt self 52 Hq ltac:(discriminate)) as [r4 [-> H4]].
  destruct (annuity_payment_defined principal r4 (amort_years self * 52) H4 ltac:(lia))
    as [a4 ->].
  eexists. reflexivity.
Qed.

Lemma clamp_years_idem (y a : Z) :
  Z.max 1 (Z.min (Z.max 1 (Z.min y a)) a) = Z.max 1 (Z.min y a).
Proof. lia. Qed.

Lemma schedule_clamps (self : MortgagePayment) (principal : R) (ppy : Z)
    (payment_amount : R) (y : Z) :
  _schedule self principal ppy payment_amount y =
    _schedule self principal ppy payment_amount (Z.max 1 (Z.min y (amort_years self))).
Proof. unfold _schedule. now rewrite clamp_years_idem. Qed.

Lemma schedules_clamps (self : MortgagePayment) (principal : R) (y : Z) :
  schedules self principal (Some y) =
    schedules self principal (Some (Z.max 1 (Z.min y (amort_years self)))).
Proof. unfold schedules. now rewrite clamp_years_idem. Qed.

(** * Monotone rounding and closed-form balances *)

Lemma round_half_even_le (y1 y2 : R) :
  y1 <= y2 -> (round_half_even y1 <= round_half_even y2)%Z.
Proof.
  intros Hy.
  pose proof (base_Int_part y1) as [A1 B1].
  pose proof (base_Int_part y2) as [A2 B2].
  assert (Hf : (Int_part y1 <= Int_part y2)%Z).
  { assert (IZR (Int_part y1) < IZR (Int_part y2 + 1)) by (rewrite plus_IZR; lra).
    apply lt_IZR in H. lia. }
  pose proof (round_half_even_ge_floor y2) as G2.
  assert (U1 : (round_half_even y1 <= Int_part y1 + 1)%Z).
  { unfold round_half_even.
    destruct (Rlt_dec _ _); [lia|]. destruct (Rlt_dec _ _); [lia|].
    destruct (Z.even _); lia. }
  destruct (Z.eq_dec (Int_part y1) (Int_part y2)) as [E|NE]; [|lia].
  unfold round_half_even. rewrite E.
  destruct (Rlt_dec (y1 - IZR (Int_part y2)) (1/2));
  destruct (Rlt_dec (1/2) (y1 - IZR (Int_part y2)));
  destruct (Rlt_dec (y2 - IZR (Int_part y2)) (1/2));
  destruct (Rlt_dec (1/2) (y2 - IZR (Int_part y2)));
  destruct (Z.even (Int_part y2)); try lia; lra.
Qed.

Lemma round2_le (x1 x2 : R) : x1 <= x2 -> round2 x1 <= round2 x2.
Proof.
  intros H. unfold round2.
  apply Rmult_le_compat_r; [lra|]. apply IZR_le. apply round_half_even_le. lra.
Qed.


(** While no pass clamps, the balance follows the annuity recurrence:
    [F + (b - F) (1 + i)^n] with [F = payment / i]. *)
Lemma bal_iter_closed (i pay b : R) (n : nat) :
  i <> 0 ->
  (forall j, (j < n)%nat -> 0 <= pay / i + (b - pay / i) * (1 + i) ^ S j) ->
  bal_iter i pay n b = pay / i + (b - pay / i) * (1 + i) ^ n.
Proof.
  intros Hi. induction n as [|n IH]; intros Hn.
  - simpl. field. exact Hi.
  - rewrite bal_iter_S_r, IH by (intros j Hj; apply Hn; lia).
    specialize (Hn n ltac:(lia)).
    unfold step.
    set (c := pay / i + (b - pay / i) * (1 + i) ^ n).
    assert (Hc : (1 + i) * c - pay = pay / i + (b - pay / i) * (1 + i) ^ S n)
      by (unfold c; simpl; field; exact Hi).
    destruct (Rlt_dec c (pay - c * i)); cbn [snd]; lra.
Qed.

Lemma rows_from_nth (i pay : R) (n : nat) (k : Z) (b : R) (j : nat) :
  (j < n)%nat ->
  nth j (rows_from i pay n k b) row0 =
    emit (k + 1 + Z.of_nat j) (bal_iter i pay j b) (step i pay (bal_iter i pay j b)).
Proof.
  revert k b j. induction n as [|n IH]; intros k b j Hj; [lia|].
  destruct j as [|j]; simpl.
  - f_equal. lia.
  - rewrite IH by lia. rewrite <- bal_iter_S. f_equal. lia.
Qed.

Lemma emit_Ending_next (i pay : R) (k : Z) (b : R) :
  Ending_Balance (emit k b (step i pay b)) = round2 (snd (step i pay b)).
Proof. apply emit_Ending. Qed.





(** * A loan whose monthly rate is exactly 10% *)




Lemma annuity_payment_value (principal r : R) (n : Z) (x : R) :
  r <> 0 -> 0 < 1 + r -> _annuity_payment principal r n = Some x ->
  x = principal * (r / (1 - Rpower (1 + r) (- IZR n))).
Proof.
  intros Hr Hr1 H. unfold _annuity_payment, fpow, fdiv in H.
  destruct (Req_EM_T r 0); [contradiction|].
  destruct (Rlt_dec 0 (1 + r)); [|lra].
  destruct (Req_EM_T _ 0); [discriminate|].
  injection H as <-. reflexivity.
Qed.



(** * Paying off a loan *)

(** One pass of the loop body is [max 0 ((1 + i) b - payment)]. *)
Lemma step_bal_max (i pay b : R) : snd (step i pay b) = Rmax 0 ((1 + i) * b - pay).
Proof.
  unfold step, Rmax.
  destruct (Rlt_dec b (pay - b * i)); destruct (Rle_dec 0 ((1 + i) * b - pay));
    cbn [snd]; nra.
Qed.

Lemma bal_iter_nonneg (i pay b : R) (n : nat) : 0 <= b -> 0 <= bal_iter i pay n b.
Proof.
  intros Hb. destruct n as [|n]; [exact Hb|].
  rewrite bal_iter_S_r, step_bal_max. apply Rmax_l.
Qed.

(** The balance never exceeds the (non-negative part of the) unclamped
    annuity recurrence [c -> (1 + i) c - payment]. *)
Lemma bal_iter_le_unclamped (i pay b : R) (n : nat) :
  0 <= i -> 0 <= pay ->
  bal_iter i pay n b <= Rmax 0 (Nat.iter n (fun c => (1 + i) * c - pay) b).
Proof.
  intros Hi Hp. induction n as [|n IH].
  - apply Rmax_r.
  - rewrite bal_iter_S_r, step_bal_max, Nat.iter_succ.
    set (c := Nat.iter n (fun c => (1 + i) * c - pay) b) in *.
    set (bn := bal_iter i pay n b) in *.
    revert IH. unfold Rmax.
    destruct (Rle_dec 0 c); destruct (Rle_dec 0 ((1 + i) * bn - pay));
      destruct (Rle_dec 0 ((1 + i) * c - pay)); intros; nra.
Qed.

Lemma unclamped_closed (i pay b : R) (n : nat) :
  i <> 0 ->
  Nat.iter n (fun c => (1 + i) * c - pay) b = pay / i + (b - pay / i) * (1 + i) ^ n.
Proof.
  intros Hi. induction n as [|n IH].
  - simpl. field. exact Hi.
  - rewrite Nat.iter_succ, IH. simpl. field. exact Hi.
Qed.

Lemma unclamped_rate_zero (pay b : R) (n : nat) :
  Nat.iter n (fun c => (1 + 0) * c - pay) b = b - INR n * pay.
Proof.
  induction n as [|n IH].
  - simpl. ring.
  - rewrite Nat.iter_succ, IH, S_INR. ring.
Qed.

(** A payment of at least the annuity payment clears the loan within its
    [n] periods in exact arithmetic. *)
Lemma annuity_clears (principal i pay A : R) (n : Z) :
  (0 < n)%Z -> 0 <= i -> _annuity_payment principal i n = Some A -> A <= pay ->
  Nat.iter (Z.to_nat n) (fun c => (1 + i) * c - pay) principal <= 0.
Proof.
  intros Hn Hi HA Hle.
  assert (HN : IZR n = INR (Z.to_nat n)) by (rewrite INR_IZR_INZ, Z2Nat.id; [reflexivity | lia]).
  assert (HNp : 0 < IZR n) by (apply IZR_lt; lia).
  destruct (Req_EM_T i 0) as [E|E].
  - subst i. rewrite annuity_payment_zero in HA by lia. injection HA as <-.
    rewrite unclamped_rate_zero, <- HN.
    apply Rmult_le_compat_l with (r := IZR n) in Hle; [|lra].
    replace (IZR n * (principal / IZR n)) with principal in Hle by (field; lra).
    lra.
  - apply annuity_payment_value in HA; [|exact E|lra].
    rewrite HN, Rpower_Ropp, Rpower_pow in HA by lra.
    rewrite unclamped_closed by exact E.
    assert (HQ : 1 < (1 + i) ^ Z.to_nat n) by (apply Rlt_pow_R1; lia || lra).
    set (Q := (1 + i) ^ Z.to_nat n) in *.
    assert (HAQ : A * (Q - 1) = principal * i * Q) by (rewrite HA; field; split; lra).
    assert (Hpq : A * (Q - 1) <= pay * (Q - 1)) by (apply Rmult_le_compat_r; lra).
    assert (Hc : (pay / i + (principal - pay / i) * Q) * i = principal * i * Q - pay * (Q - 1))
      by (field; exact E).
    assert (Hi' : 0 < i) by lra.
    nra.
Qed.

(** The first index at which a sequence drops to [eps] or below. *)
Lemma first_below (f : nat -> R) (n : nat) :
  f n <= eps -> exists m, (m <= n)%nat /\ f m <= eps /\ forall j, (j < m)%nat -> eps < f j.
Proof.
  intros Hn.
  assert (H : forall k, (exists m, (m <= k)%nat /\ f m <= eps /\
                                   forall j, (j < m)%nat -> eps < f j) \/
                        (forall j, (j <= k)%nat -> eps < f j)).
  { induction k as [|k [IH|IH]].
    - destruct (Rle_dec (f 0%nat) eps).
      + left. exists 0%nat. repeat split; [lia | exact r | intros; lia].
      + right. intros j Hj. replace j with 0%nat by lia. lra.
    - left. destruct IH as (m & H1 & H2 & H3). exists m. repeat split; auto.
    - destruct (Rle_dec (f (S k)) eps).
      + left. exists (S k). repeat split; [lia | exact r |]. intros j Hj. apply IH. lia.
      + right. intros j Hj. destruct (Nat.eq_dec j (S k)) as [->|]; [lra|]. apply IH. lia. }
  destruct (H n) as [E|E]; [exact E|]. specialize (E n (le_n n)). lra.
Qed.

(** * The 300000 loan at 5% over 25 years *)

Lemma loan_5pct_rate :
  exists r, _periodic_rate loan_5pct 12 = Some r /\
    (1 + r) ^ 12 = 1050625 / 1000000 /\
    41239154651442 / 10000000000000000 < r < 41239154651443 / 10000000000000000.
Proof.
  unfold _periodic_rate. replace (Z.eqb 12 0) with false by reflexivity.
  replace (1 + _ear_from_semiannual loan_5pct) with (1050625 / 1000000)
    by (unfold _ear_from_semiannual; simpl; field).
  unfold fpow. destruct (Rlt_dec 0 (1050625 / 1000000)) as [Hx|Hn]; [|lra].
  eexists. split; [reflexivity|].
  set (y := Rpower (1050625 / 1000000) (1 / IZR 12)).
  replace (1 + (y - 1)) with y by ring.
  assert (Hy12 : y ^ 12 = 1050625 / 1000000).
  { unfold y. replace (IZR 12) with (INR 12) by (rewrite INR_IZR_INZ; reflexivity).
    apply Rpower_root_pow; [lra | lia]. }
  assert (Hy0 : 0 < y) by (unfold y, Rpower; apply exp_pos).
  split; [exact Hy12|]. split.
  - destruct (Rlt_or_le (41239154651442 / 10000000000000000) (y - 1)) as [|Hle];
      [assumption|]. exfalso.
    assert (H : y ^ 12 <= (1 + 41239154651442 / 10000000000000000) ^ 12)
      by (apply pow_incr; lra).
    rewrite Hy12 in H. simpl in H. lra.
  - destruct (Rlt_or_le (y - 1) (41239154651443 / 10000000000000000)) as [|Hle];
      [assumption|]. exfalso.
    assert (H : (1 + 41239154651443 / 10000000000000000) ^ 12 <= y ^ 12)
      by (apply pow_incr; lra).
    rewrite Hy12 in H. simpl in H. lra.
Qed.

Lemma closed_form_ge (F P x : R) (j n : nat) :
  P <= F -> 1 <= x -> (j <= n)%nat -> F + (P - F) * x ^ n <= F + (P - F) * x ^ j.
Proof.
  intros HP Hx Hj. pose proof (Rle_pow x j n Hx Hj). nra.
Qed.

(** The disclosed monthly payment is 1744.81 (the unrounded annuity
    payment is 1744.81495...), and the monthly schedule runs 301 rows: row
    300 still ends at 2.93 and row 301 clears it. *)
Lemma loan_5pct_monthly :
  exists ps sch rows,
    payments loan_5pct 300000 = Some ps /\ monthly ps = 174481 / 100 /\
    schedules loan_5pct 300000 None = Some sch /\
    lookup_schedule "monthly" sch = Some rows /\
    List.length rows = 301%nat /\
    (Period (nth 299 rows row0) = 300)%Z /\
    Ending_Balance (nth 299 rows row0) = 293 / 100 /\
    Ending_Balance (last rows row0) = 0.
Proof.
  destruct loan_5pct_rate as (r & Hr & H12 & Hlo & Hhi).
  assert (Hq : quoted_rate_percent loan_5pct <> -200) by (simpl; lra).
  destruct (payments_defined loan_5pct 300000 Hq ltac:(discriminate)) as [ps Hp].
  assert (HQ : (1 + r) ^ 300 = (1050625 / 1000000) ^ 25)
    by (rewrite <- H12, <- pow_mult; reflexivity).
  set (Q := (1 + r) ^ 300) in *.
  assert (HQ1 : 1 < Q) by (rewrite HQ; simpl; lra).
  (* the monthly payment *)
  assert (Hm : monthly ps = 174481 / 100).
  { destruct (payments_rounded _ _ _ Hp) as (r12 & x1 & x2 & x3 & x4 & Hr' & Hx & ->).
    rewrite Hr in Hr'. injection Hr' as <-.
    apply annuity_payment_value in Hx; [|lra|lra].
    cbn [monthly].
    replace (IZR (amort_years loan_5pct * 12)) with (INR 300) in Hx
      by (rewrite INR_IZR_INZ; reflexivity).
    rewrite Rpower_Ropp, Rpower_pow in Hx by lra. fold Q in Hx.
    assert (Hx' : x1 * 100 * (Q - 1) = 30000000 * r * Q)
      by (rewrite Hx; field; split; lra).
    rewrite HQ in Hx'. simpl in Hx'.
    rewrite (round2_near _ 174481); [reflexivity|]. simpl. lra. }
  set (pay := 174481 / 100).
  set (F := pay / r).
  assert (Hr0 : r <> 0) by lra.
  assert (HPF : 300000 <= F).
  { unfold F, pay. apply Rmult_le_reg_r with r; [lra|].
    unfold Rdiv. rewrite Rmult_assoc, Rinv_l by exact Hr0. lra. }
  (* the balance after 300 months *)
  set (c300 := F + (300000 - F) * Q).
  assert (Hc : c300 * r = pay + (300000 * r - pay) * Q)
    by (unfold c300, F; field; exact Hr0).
  rewrite HQ in Hc. simpl in Hc.
  assert (Hc1 : 2925 / 1000 < c300).
  { destruct (Rlt_or_le (2925 / 1000) c300) as [|Hle]; [assumption|]. exfalso.
    assert (c300 * r <= 2925 / 1000 * r) by (apply Rmult_le_compat_r; lra).
    unfold pay in Hc. lra. }
  assert (Hc2 : c300 < 2935 / 1000).
  { destruct (Rlt_or_le c300 (2935 / 1000)) as [|Hle]; [assumption|]. exfalso.
    assert (2935 / 1000 * r <= c300 * r) by (apply Rmult_le_compat_r; lra).
    unfold pay in Hc. lra. }
  assert (Hbal : forall j, (j <= 300)%nat ->
            bal_iter r pay j 300000 = F + (300000 - F) * (1 + r) ^ j /\ c300 <= F + (300000 - F) * (1 + r) ^ j).
  { intros j Hj.
    assert (Hge : forall k, (k <= 300)%nat -> c300 <= F + (300000 - F) * (1 + r) ^ k)
      by (intros k Hk; apply closed_form_ge; [exact HPF | lra | exact Hk]).
    split; [|now apply Hge].
    apply bal_iter_closed; [exact Hr0|]. intros k Hk.
    pose proof (Hge (S k) ltac:(lia)). fold F. lra. }
  assert (H300 : bal_iter r pay 300 300000 = c300) by (apply Hbal; lia).
  assert (H301 : bal_iter r pay 301 300000 = 0).
  { rewrite bal_iter_S_r, H300, step_bal_max. apply Rmax_left.
    assert (r * c300 <= 1 / 100 * 3) by (apply Rmult_le_compat; lra).
    unfold pay. lra. }
  (* the monthly schedule *)
  destruct (periodic_rate_gt loan_5pct 24 Hq ltac:(discriminate)) as [r24 [H24 _]].
  destruct (periodic_rate_gt loan_5pct 26 Hq ltac:(discriminate)) as [r26 [H26 _]].
  destruct (periodic_rate_gt loan_5pct 52 Hq ltac:(discriminate)) as [r52 [H52 _]].
  destruct (schedules_monthly loan_5pct 300000 None ps r r24 r26 r52 Hp Hr H24 H26 H52)
    as [sch [Hs Hl]].
  exists ps, sch. eexists. split; [exact Hp|]. split; [exact Hm|].
  split; [exact Hs|]. split; [exact Hl|].
  cbv zeta. rewrite Hm. fold pay.
  rewrite (schedule_loop_prefix r pay _ 301); [| simpl; lia | simpl; lia |].
  2:{ intros j Hj. destruct (Hbal j ltac:(lia)) as [-> H]. unfold eps. lra. }
  rewrite schedule_loop_stop_bal by (rewrite H301; unfold eps; lra).
  rewrite app_nil_r.
  split; [apply rows_from_length|].
  rewrite rows_from_nth by lia. rewrite emit_Period, emit_Ending.
  rewrite <- bal_iter_S_r, H300.
  split; [reflexivity|].
  rewrite (round2_near _ 293) by lra. split; [reflexivity|].
  rewrite rows_from_last, emit_Ending by lia.
  rewrite <- bal_iter_S_r. replace (S (301 - 1)) with 301%nat by reflexivity.
  rewrite H301. apply round2_0.
Qed.

(** * Rounding error, exact annuities and the shape of the loop *)

Lemma round2_err (x : R) : - (1 / 200) <= round2 x - x <= 1 / 200.
Proof.
  unfold round2, round_half_even.
  pose proof (base_Int_part (x * 100)) as [A B].
  set (f := Int_part (x * 100)) in *.
  destruct (Rlt_dec (x * 100 - IZR f) (1 / 2));
    [|destruct (Rlt_dec (1 / 2) (x * 100 - IZR f)); [|destruct (Z.even f)]];
    try rewrite plus_IZR; split; lra.
Qed.

(** One pass keeps [start + interest - pay_eff - bal = 0] exactly. *)
Lemma step_balances (i pay start : R) :
  let '(interest, _, pay_eff, bal) := step i pay start in
  start + interest - pay_eff - bal = 0.
Proof. unfold step. destruct (Rlt_dec _ _); simpl; ring. Qed.

Lemma bal_iter_grows (i pay b : R) (j : nat) :
  0 <= i -> 0 <= b -> pay <= i * b ->
  b <= bal_iter i pay j b /\ pay <= i * bal_iter i pay j b.
Proof.
  intros Hi Hb Hp. induction j as [|j [IH1 IH2]]; [simpl; lra|].
  rewrite bal_iter_S_r, step_bal_max.
  set (c := bal_iter i pay j b) in *.
  rewrite Rmax_right by lra.
  split; [lra|].
  assert (i * c <= i * ((1 + i) * c - pay)) by (apply Rmult_le_compat_l; lra).
  lra.
Qed.

(** A smaller cap only cuts the loop short: same rows, fewer of them. *)
Lemma schedule_loop_cap_prefix (i pay : R) (n1 n2 : Z) (fuel1 fuel2 : nat) (k : Z) (b : R) :
  (n1 <= n2)%Z -> (Z.to_nat (n2 + 2 - k) <= fuel2)%nat ->
  exists t, schedule_loop fuel2 i pay n2 k b = app (schedule_loop fuel1 i pay n1 k b) t.
Proof.
  intros Hn. revert fuel2 k b.
  induction fuel1 as [|fuel1 IH]; intros fuel2 k b Hf.
  - exists (schedule_loop fuel2 i pay n2 k b). reflexivity.
  - destruct fuel2 as [|fuel2].
    + exists []. rewrite (schedule_loop_stop_cap i pay n1) by lia. reflexivity.
    + cbn [schedule_loop].
      destruct (Rlt_dec eps b); [|exists []; reflexivity].
      destruct (Z.ltb k (n1 + 2)) eqn:E1; destruct (Z.ltb k (n2 + 2)) eqn:E2.
      * destruct (IH fuel2 (k + 1)%Z (snd (step i pay b))) as [t Ht].
        { apply Z.ltb_lt in E2. lia. }
        exists t. rewrite Ht. reflexivity.
      * apply Z.ltb_lt in E1. apply Z.ltb_ge in E2. lia.
      * eexists. reflexivity.
      * exists []. reflexivity.
Qed.

(** * The four periodic rates as powers of one root *)

Lemma one_plus_ear_pos (self : MortgagePayment) :
  quoted_rate_percent self <> -200 -> 0 < 1 + _ear_from_semiannual self.
Proof.
  intros Hq. unfold _ear_from_semiannual.
  assert (1 + quoted_rate_percent self / 100 / 2 <> 0) by (intros E; apply Hq; lra).
  assert (0 < (1 + quoted_rate_percent self / 100 / 2) ^ 2).
  { rewrite <- Rsqr_pow2. now apply Rsqr_pos_lt. }
  lra.
Qed.

Lemma one_plus_ear_ge_1 (self : MortgagePayment) :
  0 <= quoted_rate_percent self -> 1 <= 1 + _ear_from_semiannual self.
Proof. intros Hq. unfold _ear_from_semiannual. simpl. nra. Qed.

(** With [t = (1 + ear) ** (1 / 312)], the rate for [k] payments a year is
    [t ** (312 / k) - 1]. *)
Lemma periodic_rate_root (self : MortgagePayment) (k m : nat) :
  quoted_rate_percent self <> -200 -> (k * m = 312)%nat ->
  _periodic_rate self (Z.of_nat k) =
    Some (Rpower (1 + _ear_from_semiannual self) (1 / 312) ^ m - 1).
Proof.
  intros Hq Hkm. pose proof (one_plus_ear_pos self Hq) as HE.
  assert (Hk : INR k * INR m = 312) by (rewrite <- mult_INR, Hkm, INR_IZR_INZ; reflexivity).
  assert (Hk0 : INR k <> 0) by (intros E; rewrite E in Hk; lra).
  assert (Hm0 : INR m <> 0) by (intros E; rewrite E in Hk; lra).
  unfold _periodic_rate.
  replace (Z.eqb (Z.of_nat k) 0) with false
    by (symmetry; apply Z.eqb_neq; intros E; apply Hk0; rewrite INR_IZR_INZ, E; reflexivity).
  unfold fpow. destruct (Rlt_dec 0 _) as [_|Hn]; [|lra].
  f_equal. f_equal.
  rewrite <- Rpower_pow by (unfold Rpower; apply exp_pos).
  rewrite Rpower_mult. f_equal.
  rewrite <- INR_IZR_INZ, <- Hk. field. split; assumption.
Qed.

Lemma annuity_root (principal E : R) (m k : nat) (a : Z) :
  0 < E -> E <> 1 -> (k * m = 312)%nat -> a <> 0%Z ->
  _annuity_payment principal (Rpower E (1 / 312) ^ m - 1) (a * Z.of_nat k) =
    Some (principal * ((Rpower E (1 / 312) ^ m - 1) / (1 - Rpower E (- IZR a)))).
Proof.
  intros HE HE1 Hkm Ha.
  assert (Hk : INR k * INR m = 312) by (rewrite <- mult_INR, Hkm, INR_IZR_INZ; reflexivity).
  assert (Hk0 : INR k <> 0) by (intros E0; rewrite E0 in Hk; lra).
  assert (Hm0 : INR m <> 0) by (intros E0; rewrite E0 in Hk; lra).
  assert (Hu : Rpower E (1 / 312) ^ m = Rpower E (INR m / 312)).
  { rewrite <- Rpower_pow by (unfold Rpower; apply exp_pos).
    rewrite Rpower_mult. f_equal. field. }
  rewrite Hu.
  assert (Hu1 : Rpower E (INR m / 312) <> 1).
  { intros E0. apply Rpower_eq_1 in E0; [contradiction | exact HE |].
    unfold Rdiv. apply Rmult_integral_contrapositive_currified;
      [exact Hm0 | apply Rinv_neq_0_compat; lra]. }
  unfold _annuity_payment, fpow, fdiv.
  destruct (Req_EM_T (Rpower E (INR m / 312) - 1) 0) as [E0|_];
    [exfalso; apply Hu1; lra|].
  replace (1 + (Rpower E (INR m / 312) - 1)) with (Rpower E (INR m / 312)) by ring.
  destruct (Rlt_dec 0 (Rpower E (INR m / 312))) as [_|Hn];
    [|exfalso; apply Hn; unfold Rpower; apply exp_pos].
  rewrite Rpower_mult.
  replace (INR m / 312 * - IZR (a * Z.of_nat k)) with (- IZR a)
    by (rewrite mult_IZR, <- INR_IZR_INZ, <- Hk; field; split; assumption).
  destruct (Req_EM_T (1 - Rpower E (- IZR a)) 0) as [E0|_]; [|reflexivity].
  exfalso. apply HE1. apply (Rpower_eq_1 E (- IZR a)); [exact HE | | lra].
  intros E1. apply Ha. apply eq_IZR. lra.
Qed.

Lemma payments_full (self : MortgagePayment) (principal : R) (ps : PaymentSet) :
  payments self principal = Some ps ->
  exists r12 r24 r26 r52 x1 x2 x3 x4,
    _periodic_rate self 12 = Some r12 /\ _periodic_rate self 24 = Some r24 /\
    _periodic_rate self 26 = Some r26 /\ _periodic_rate self 52 = Some r52 /\
    _annuity_payment principal r12 (amort_years self * 12) = Some x1 /\
    _annuity_payment principal r24 (amort_years self * 24) = Some x2 /\
    _annuity_payment principal r26 (amort_years self * 26) = Some x3 /\
    _annuity_payment principal r52 (amort_years self * 52) = Some x4 /\
    ps = {| monthly := round2 x1; semi_monthly := round2 x2; bi_weekly := round2 x3;
            weekly := round2 x4; accel_bi_weekly := round2 (x1 / 2);
            accel_weekly := round2 (x1 / 4) |}.
Proof.
  unfold payments. intros H.
  destruct (_periodic_rate self 12) as [r12|] eqn:E12; [|discriminate].
  destruct (_annuity_payment principal r12 _) as [x1|] eqn:A1; [|discriminate].
  destruct (_periodic_rate self 24) as [r24|] eqn:E24; [|discriminate].
  destruct (_annuity_payment principal r24 _) as [x2|] eqn:A2; [|discriminate].
  destruct (_periodic_rate self 26) as [r26|] eqn:E26; [|discriminate].
  destruct (_annuity_payment principal r26 _) as [x3|] eqn:A3; [|discriminate].
  destruct (_periodic_rate self 52) as [r52|] eqn:E52; [|discriminate].
  destruct (_annuity_payment principal r52 _) as [x4|] eqn:A4; [|discriminate].
  injection H as <-. exists r12, r24, r26, r52, x1, x2, x3, x4. repeat split; assumption.
Qed.

(** The payment set in terms of [t = (1 + ear) ** (1 / 312)] and
    [V = (1 + ear) ** (- amort_years)]. *)
Lemma payments_shape (self : MortgagePayment) (principal : R) (ps : PaymentSet) (t V : R) :
  quoted_rate_percent self <> -200 ->
  t = Rpower (1 + _ear_from_semiannual self) (1 / 312) ->
  V = Rpower (1 + _ear_from_semiannual self) (- IZR (amort_years self)) ->
  payments self principal = Some ps ->
  exists x1 x2 x3 x4,
    _periodic_rate self 12 = Some (t ^ 26 - 1) /\ _periodic_rate self 24 = Some (t ^ 13 - 1) /\
    _periodic_rate self 26 = Some (t ^ 12 - 1) /\ _periodic_rate self 52 = Some (t ^ 6 - 1) /\
    _annuity_payment principal (t ^ 26 - 1) (amort_years self * 12) = Some x1 /\
    _annuity_payment principal (t ^ 13 - 1) (amort_years self * 24) = Some x2 /\
    _annuity_payment principal (t ^ 12 - 1) (amort_years self * 26) = Some x3 /\
    _annuity_payment principal (t ^ 6 - 1) (amort_years self * 52) = Some x4 /\
    ps = {| monthly := round2 x1; semi_monthly := round2 x2; bi_weekly := round2 x3;
            weekly := round2 x4; accel_bi_weekly := round2 (x1 / 2);
            accel_weekly := round2 (x1 / 4) |} /\
    (amort_years self <> 0)%Z /\
    (1 + _ear_from_semiannual self = 1 ->
       t = 1 /\
       x1 = principal / IZR (amort_years self * 12) /\
       x2 = principal / IZR (amort_years self * 24) /\
       x3 = principal / IZR (amort_years self * 26) /\
       x4 = principal / IZR (amort_years self * 52)) /\
    (1 + _ear_from_semiannual self <> 1 ->
       1 - V <> 0 /\
       x1 = principal * ((t ^ 26 - 1) / (1 - V)) /\
       x2 = principal * ((t ^ 13 - 1) / (1 - V)) /\
       x3 = principal * ((t ^ 12 - 1) / (1 - V)) /\
       x4 = principal * ((t ^ 6 - 1) / (1 - V))).
Proof.
  intros Hq Ht HV Hp.
  destruct (payments_full _ _ _ Hp)
    as (r12 & r24 & r26 & r52 & x1 & x2 & x3 & x4 &
        H12 & H24 & H26 & H52 & A1 & A2 & A3 & A4 & Hps).
  pose proof (periodic_rate_root self 12 26 Hq eq_refl) as R12.
  pose proof (periodic_rate_root self 24 13 Hq eq_refl) as R24.
  pose proof (periodic_rate_root self 26 12 Hq eq_refl) as R26.
  pose proof (periodic_rate_root self 52 6 Hq eq_refl) as R52.
  change (Z.of_nat 12) with 12%Z in R12. change (Z.of_nat 24) with 24%Z in R24.
  change (Z.of_nat 26) with 26%Z in R26. change (Z.of_nat 52) with 52%Z in R52.
  rewrite <- Ht in R12, R24, R26, R52.
  rewrite R12 in H12. rewrite R24 in H24. rewrite R26 in H26. rewrite R52 in H52.
  assert (r12 = t ^ 26 - 1) by congruence. assert (r24 = t ^ 13 - 1) by congruence.
  assert (r26 = t ^ 12 - 1) by congruence. assert (r52 = t ^ 6 - 1) by congruence.
  subst r12 r24 r26 r52.
  assert (Ha : amort_years self <> 0%Z).
  { intros E. rewrite (payments_amort_zero self principal E) in Hp. discriminate. }
  exists x1, x2, x3, x4.
  do 9 (split; [assumption|]). split; [exact Ha|]. split.
  - intros HE. assert (Ht1 : t = 1) by (rewrite Ht, HE; apply Rpower_base_1).
    rewrite Ht1, !pow1, Rminus_diag in A1, A2, A3, A4.
    rewrite annuity_payment_zero in A1, A2, A3, A4 by lia.
    repeat split; congruence.
  - intros HE. pose proof (one_plus_ear_pos self Hq) as HE0.
    pose proof (annuity_root principal _ 26 12 (amort_years self) HE0 HE eq_refl Ha) as B1.
    pose proof (annuity_root principal _ 13 24 (amort_years self) HE0 HE eq_refl Ha) as B2.
    pose proof (annuity_root principal _ 12 26 (amort_years self) HE0 HE eq_refl Ha) as B3.
    pose proof (annuity_root principal _ 6 52 (amort_years self) HE0 HE eq_refl Ha) as B4.
    change (Z.of_nat 12) with 12%Z in B1. change (Z.of_nat 24) with 24%Z in B2.
    change (Z.of_nat 26) with 26%Z in B3. change (Z.of_nat 52) with 52%Z in B4.
    rewrite <- Ht, <- HV in B1, B2, B3, B4.
    rewrite B1 in A1. rewrite B2 in A2. rewrite B3 in A3. rewrite B4 in A4.
    split; [|repeat split; congruence].
    intros E0. apply HE. apply (Rpower_eq_1 _ (- IZR (amort_years self))); [exact HE0 | |].
    + intros E1. apply Ha. apply eq_IZR. lra.
    + rewrite <- HV. lra.
Qed.

(** For a positive quoted rate: [t > 1] and [0 < V < 1]. *)
Lemma root_gt_1 (E y : R) : 1 < E -> 0 < y -> 1 < Rpower E y.
Proof.
  intros HE Hy. unfold Rpower. rewrite <- exp_0. apply exp_increasing.
  assert (0 < ln E) by (rewrite <- ln_1; apply ln_increasing; lra).
  apply Rmult_lt_0_compat; assumption.
Qed.

Lemma root_lt_1 (E y : R) : 1 < E -> y < 0 -> 0 < Rpower E y < 1.
Proof.
  intros HE Hy. unfold Rpower. split; [apply exp_pos|]. rewrite <- exp_0. apply exp_increasing.
  assert (0 < ln E) by (rewrite <- ln_1; apply ln_increasing; lra).
  nra.
Qed.

Lemma pow_gaps (t : R) :
  1 <= t ->
  2 * (t ^ 13 - 1) <= t ^ 26 - 1 /\ 2 * (t ^ 12 - 1) <= t ^ 26 - 1 /\
  4 * (t ^ 6 - 1) <= t ^ 26 - 1.
Proof.
  intros Ht.
  assert (H13 : 1 <= t ^ 13) by (apply pow_R1_Rle; exact Ht).
  assert (H1213 : t ^ 12 <= t ^ 13) by (apply Rle_pow; [exact Ht | lia]).
  assert (E26 : t ^ 26 = t ^ 13 * t ^ 13) by ring.
  assert (G1 : 2 * (t ^ 13 - 1) <= t ^ 26 - 1) by nra.
  split; [exact G1|]. split; [lra|].
  set (w := t ^ 6).
  assert (Hw : 1 <= w) by (apply pow_R1_Rle; exact Ht).
  assert (H24 : w ^ 4 <= t ^ 26).
  { unfold w. rewrite <- pow_mult. apply Rle_pow; [exact Ht | lia]. }
  assert (Hw2 : 1 <= w ^ 2) by (apply pow_R1_Rle; exact Hw).
  assert (Hw3 : 1 <= w ^ 3) by (apply pow_R1_Rle; exact Hw).
  assert (F : w ^ 4 - 1 - 4 * (w - 1) = (w - 1) * ((w ^ 3 - 1) + (w ^ 2 - 1) + (w - 1)))
    by ring.
  assert (0 <= (w - 1) * ((w ^ 3 - 1) + (w ^ 2 - 1) + (w - 1)))
    by (apply Rmult_le_pos; lra).
  lra.
Qed.

(** Scaling an inequality by a non-negative principal over a positive
    denominator. *)
Lemma annuity_scale_le (P D a b k : R) :
  0 <= P -> 0 < D -> 0 < k -> k * a <= b -> P * (a / D) <= P * (b / D) / k.
Proof.
  intros HP HD Hk Hab.
  assert (Hc : 0 <= P / D) by (unfold Rdiv; apply Rmult_le_pos; [lra | apply Rlt_le, Rinv_0_lt_compat; lra]).
  replace (P * (a / D)) with (P / D * a) by (field; lra).
  replace (P * (b / D) / k) with (P / D * (b / k)) by (field; lra).
  apply Rmult_le_compat_l; [exact Hc|].
  apply Rmult_le_reg_l with k; [lra|].
  replace (k * (b / k)) with b by (field; lra). exact Hab.
Qed.

Lemma annuity_mono (P D a b : R) :
  0 <= P -> 0 < D -> a <= b -> P * (a / D) <= P * (b / D).
Proof.
  intros HP HD Hab. apply Rmult_le_compat_l; [exact HP|].
  unfold Rdiv. apply Rmult_le_compat_r; [apply Rlt_le, Rinv_0_lt_compat; exact HD | exact Hab].
Qed.

Lemma div_mult_IZR (P : R) (a k : Z) :
  a <> 0%Z -> k <> 0%Z -> P / IZR (a * k) = P / IZR a / IZR k.
Proof.
  intros Ha Hk. rewrite mult_IZR. field.
  split; apply not_0_IZR; assumption.
Qed.

(** A quoted rate of -200% makes [1 + ear] zero: every periodic rate is -1,
    and an annuity at rate -1 that does not raise is [-principal]. *)
Lemma periodic_rate_base_zero (self : MortgagePayment) (ppy : Z) :
  1 + _ear_from_semiannual self = 0 -> (0 < ppy)%Z -> _periodic_rate self ppy = Some (-1).
Proof.
  intros HE Hp. unfold _periodic_rate. cbv zeta.
  replace (Z.eqb ppy 0) with false by (symmetry; apply Z.eqb_neq; lia).
  unfold fpow. rewrite HE.
  destruct (Rlt_dec 0 0); [lra|]. destruct (Req_EM_T 0 0) as [_|]; [|congruence].
  assert (0 < 1 / IZR ppy).
  { apply Rmult_lt_0_compat; [lra|]. apply Rinv_0_lt_compat, IZR_lt. exact Hp. }
  destruct (Rlt_dec 0 (1 / IZR ppy)); [|contradiction].
  f_equal. ring.
Qed.

Lemma annuity_payment_minus_one (principal : R) (n : Z) (x : R) :
  _annuity_payment principal (-1) n = Some x -> x = - principal.
Proof.
  unfold _annuity_payment, fpow, fdiv. intros H.
  destruct (Req_EM_T (-1) 0); [lra|].
  replace (1 + -1) with 0 in H by ring.
  destruct (Rlt_dec 0 0); [lra|]. destruct (Req_EM_T 0 0) as [_|]; [|congruence].
  destruct (Rlt_dec 0 (- IZR n)).
  - destruct (Req_EM_T (1 - 0) 0); [lra|].
    injection H as <-. field.
  - destruct (Req_EM_T (- IZR n) 0); [|discriminate].
    destruct (Req_EM_T (1 - 1) 0); [discriminate | lra].
Qed.

(** * The claims *)

(** C3: for every principal, payment amount and years limit (and a positive
    frequency), [_schedule] returns a schedule (it never raises and the loop
    terminates), of at most [nmax + 2] rows numbered 1, 2, ...: the cap
    [k < nmax + 2] is enforced whatever the balance does, and a balance that
    never falls below 1e-6 leaves the rows produced so far. *)
Theorem schedule_terminates_bounded (self : MortgagePayment) (principal : R) (ppy : Z)
    (payment_amount : R) (years_limit : Z) :
  (0 < ppy)%Z ->
  exists rows,
    _schedule self principal ppy payment_amount years_limit = Some rows /\
    (List.length rows <=
       Z.to_nat (Z.max 1 (Z.min years_limit (amort_years self)) * ppy + 2))%nat /\
    (forall j, (j < List.length rows)%nat ->
       Period (nth j rows row0) = (Z.of_nat j + 1)%Z).
Proof.
  intros Hp.
  destruct (schedule_defined self principal ppy payment_amount years_limit Hp)
    as [i [_ Hs]].
  eexists. split; [exact Hs|]. cbv zeta. split.
  - eapply Nat.le_trans; [apply schedule_loop_length|]. lia.
  - intros j Hj. rewrite schedule_loop_periods by exact Hj. lia.
Qed.

Lemma schedule_terminates_bounded_witness :
  (0 < 12)%Z /\
  exists rows,
    _schedule (MortgagePayment_init 0 25 None) 1 12 0 25 = Some rows /\
    (List.length rows <= Z.to_nat (Z.max 1 (Z.min 25 25) * 12 + 2))%nat /\
    (forall j, (j < List.length rows)%nat ->
       Period (nth j rows row0) = (Z.of_nat j + 1)%Z).
Proof.
  split; [reflexivity|].
  apply (schedule_terminates_bounded (MortgagePayment_init 0 25 None) 1 12 0 25).
  reflexivity.
Defined.

(** C4: in every row of every schedule the pass starts from a positive
    balance; when [payment_amount - interest] exceeds it, the principal
    component is clamped to the starting balance and the payment is
    [interest + starting balance]; the ending balance is never negative
    (before or after rounding) and no pass pays more than interest plus the
    starting balance. *)
Theorem schedule_rows_clamped (self : MortgagePayment) (principal : R) (ppy : Z)
    (payment_amount : R) (years_limit : Z) (i : R) (rows : list Row) :
  _periodic_rate self ppy = Some i ->
  _schedule self principal ppy payment_amount years_limit = Some rows ->
  forall r, In r rows ->
  exists k start interest principal_comp pay_eff bal,
    0 < start /\
    step i payment_amount start = (interest, principal_comp, pay_eff, bal) /\
    r = emit k start (interest, principal_comp, pay_eff, bal) /\
    (start < payment_amount - interest ->
       principal_comp = start /\ pay_eff = interest + start) /\
    0 <= bal /\ pay_eff <= interest + start /\ 0 <= Ending_Balance r.
Proof.
  intros Hi Hs r Hr. unfold _schedule in Hs. rewrite Hi in Hs.
  injection Hs as <-.
  apply schedule_loop_In in Hr as [k [start [Hst ->]]].
  unfold eps in Hst.
  destruct (step i payment_amount start) as [[[interest pc] pe] bal] eqn:E.
  exists k, start, interest, pc, pe, bal.
  split; [lra|]. split; [exact E|]. split; [reflexivity|].
  unfold step in E.
  destruct (Rlt_dec start (payment_amount - start * i)) as [Hc|Hc];
    injection E as <- <- <- <-;
    (split; [intros; split; lra|]);
    (split; [lra|]); (split; [lra|]);
    simpl; apply round2_nonneg; lra.
Qed.

Lemma schedule_rows_clamped_witness :
  _periodic_rate (MortgagePayment_init 0 25 None) 12 = Some 0 /\
  _schedule (MortgagePayment_init 0 25 None) 1 12 2 25 = Some [emit 1 1 (step 0 2 1)] /\
  exists k start interest principal_comp pay_eff bal,
    0 < start /\
    step 0 2 start = (interest, principal_comp, pay_eff, bal) /\
    emit 1 1 (step 0 2 1) = emit k start (interest, principal_comp, pay_eff, bal) /\
    (start < 2 - interest -> principal_comp = start /\ pay_eff = interest + start) /\
    0 <= bal /\ pay_eff <= interest + start /\ 0 <= Ending_Balance (emit 1 1 (step 0 2 1)).
Proof.
  assert (H1 : _periodic_rate (MortgagePayment_init 0 25 None) 12 = Some 0)
    by (apply periodic_rate_zero; [reflexivity | discriminate]).
  split; [exact H1|]. split; [exact rate_zero_one_clamped_row|].
  apply (schedule_rows_clamped (MortgagePayment_init 0 25 None) 1 12 2 25 0
           [emit 1 1 (step 0 2 1)] H1 rate_zero_one_clamped_row).
  left. reflexivity.
Defined.

(** C6: for a positive quoted rate and each of the frequencies 12, 24, 26
    and 52, compounding the periodic rate [payments_per_year] times gives
    back the effective annual rate exactly (so within any relative
    tolerance, 1e-9 in particular). *)
Theorem periodic_rate_reproduces_ear (self : MortgagePayment) (ppy : Z) :
  0 < quoted_rate_percent self -> In ppy [12; 24; 26; 52]%Z ->
  exists p, _periodic_rate self ppy = Some p /\
    (1 + p) ^ Z.to_nat ppy - 1 = _ear_from_semiannual self /\
    Rabs (((1 + p) ^ Z.to_nat ppy - 1) - _ear_from_semiannual self)
      <= 1 / 1000000000 * Rabs (_ear_from_semiannual self).
Proof.
  intros Hq Hin.
  assert (Hp : (0 < ppy)%Z) by (simpl in Hin; intuition lia).
  set (x := 1 + _ear_from_semiannual self).
  assert (Hx : 0 < x).
  { unfold x, _ear_from_semiannual.
    assert (0 < (1 + quoted_rate_percent self / 100 / 2) ^ 2) by (apply pow_lt; lra).
    lra. }
  assert (Hn : IZR ppy = INR (Z.to_nat ppy))
    by (rewrite INR_IZR_INZ, Z2Nat.id by lia; reflexivity).
  assert (Hpow : (1 + (Rpower x (1 / IZR ppy) - 1)) ^ Z.to_nat ppy = x).
  { replace (1 + (Rpower x (1 / IZR ppy) - 1)) with (Rpower x (1 / IZR ppy)) by ring.
    rewrite Hn. apply Rpower_root_pow; [exact Hx | lia]. }
  exists (Rpower x (1 / IZR ppy) - 1). split; [|split].
  - unfold _periodic_rate.
    replace (Z.eqb ppy 0) with false by (symmetry; apply Z.eqb_neq; lia).
    fold x. unfold fpow. destruct (Rlt_dec 0 x); [reflexivity | lra].
  - rewrite Hpow. unfold x. ring.
  - rewrite Hpow. unfold x.
    replace (1 + _ear_from_semiannual self - 1 - _ear_from_semiannual self) with 0 by ring.
    rewrite Rabs_R0. apply Rmult_le_pos; [lra | apply Rabs_pos].
Qed.

Lemma periodic_rate_reproduces_ear_witness :
  0 < quoted_rate_percent (MortgagePayment_init 5 25 None) /\ In 12%Z [12; 24; 26; 52]%Z /\
  exists p, _periodic_rate (MortgagePayment_init 5 25 None) 12 = Some p /\
    (1 + p) ^ Z.to_nat 12 - 1 = _ear_from_semiannual (MortgagePayment_init 5 25 None) /\
    Rabs (((1 + p) ^ Z.to_nat 12 - 1) - _ear_from_semiannual (MortgagePayment_init 5 25 None))
      <= 1 / 1000000000 * Rabs (_ear_from_semiannual (MortgagePayment_init 5 25 None)).
Proof.
  assert (H1 : 0 < quoted_rate_percent (MortgagePayment_init 5 25 None)) by (simpl; lra).
  assert (H2 : In 12%Z [12; 24; 26; 52]%Z) by (left; reflexivity).
  split; [exact H1|]. split; [exact H2|].
  exact (periodic_rate_reproduces_ear (MortgagePayment_init 5 25 None) 12 H1 H2).
Defined.

(** C8: [schedules] builds its six schedules from the entries of the
    payment set, which are amounts rounded to cents (the monthly one being
    the rounded annuity payment), with the unrounded periodic rates; in every
    schedule each row pays exactly its disclosed amount, except that the
    final row's payment is clamped to interest plus the remaining balance
    (the final-period rule of [_schedule]). *)
Theorem schedules_built_from_disclosed_payments (self : MortgagePayment) (principal : R)
    (years : option Z) (sch : list (string * list Row)) :
  schedules self principal years = Some sch ->
  exists ps r12 r24 r26 r52 x,
    payments self principal = Some ps /\
    _periodic_rate self 12 = Some r12 /\ _periodic_rate self 24 = Some r24 /\
    _periodic_rate self 26 = Some r26 /\ _periodic_rate self 52 = Some r52 /\
    _annuity_payment principal r12 (amort_years self * 12) = Some x /\
    monthly ps = round2 x /\
    (let yl := Z.max 1 (Z.min (match years with Some y => y | None => term_years self end)
                              (amort_years self)) in
     let lim := Z.max 1 (Z.min yl (amort_years self)) in
     let gen ppy r pay :=
       schedule_loop (Z.to_nat (lim * ppy + 2)) r pay (lim * ppy) 0 principal in
     sch = [("monthly", gen 12%Z r12 (monthly ps));
            ("semi-monthly", gen 24%Z r24 (semi_monthly ps));
            ("bi-weekly", gen 26%Z r26 (bi_weekly ps));
            ("weekly", gen 52%Z r52 (weekly ps));
            ("accelerated bi-weekly", gen 26%Z r26 (accel_bi_weekly ps));
            ("accelerated weekly", gen 52%Z r52 (accel_weekly ps))]%string) /\
    (forall name rows, In (name, rows) sch ->
       exists d, In d [monthly ps; semi_monthly ps; bi_weekly ps; weekly ps;
                       accel_bi_weekly ps; accel_weekly ps] /\
                 round2 d = d /\ pays_disclosed d rows).
Proof.
  intros H. unfold schedules, _schedule in H.
  destruct (payments self principal) as [ps|] eqn:Hp; [|discriminate].
  destruct (_periodic_rate self 12) as [r12|] eqn:H12; [|discriminate].
  destruct (_periodic_rate self 24) as [r24|] eqn:H24; [|discriminate].
  destruct (_periodic_rate self 26) as [r26|] eqn:H26; [|discriminate].
  destruct (_periodic_rate self 52) as [r52|] eqn:H52; [|discriminate].
  injection H as <-.
  destruct (payments_rounded self principal ps Hp)
    as [r12' [x1 [x2 [x3 [x4 [H12' [Hx1 ->]]]]]]].
  rewrite H12 in H12'. injection H12' as <-.
  exists {| monthly := round2 x1; semi_monthly := round2 x2; bi_weekly := round2 x3;
            weekly := round2 x4; accel_bi_weekly := round2 (x1 / 2);
            accel_weekly := round2 (x1 / 4) |}, r12, r24, r26, r52, x1.
  do 7 (split; [assumption || reflexivity|]). split; [reflexivity|].
  intros name rows Hin. cbn [monthly semi_monthly bi_weekly weekly accel_bi_weekly
                             accel_weekly].
  simpl in Hin.
  destruct Hin as [E|[E|[E|[E|[E|[E|[]]]]]]]; injection E as _ <-;
    [exists (round2 x1) | exists (round2 x2) | exists (round2 x3) | exists (round2 x4)
    | exists (round2 (x1 / 2)) | exists (round2 (x1 / 4))];
    (split; [simpl; tauto|]); (split; [apply round2_idem|]); apply pays_disclosed_loop.
Qed.

Lemma schedules_built_from_disclosed_payments_witness :
  exists sch,
    schedules (MortgagePayment_init 0 25 None) 1 None = Some sch /\
    exists ps r12 r24 r26 r52 x,
    payments (MortgagePayment_init 0 25 None) 1 = Some ps /\
    _periodic_rate (MortgagePayment_init 0 25 None) 12 = Some r12 /\
    _periodic_rate (MortgagePayment_init 0 25 None) 24 = Some r24 /\
    _periodic_rate (MortgagePayment_init 0 25 None) 26 = Some r26 /\
    _periodic_rate (MortgagePayment_init 0 25 None) 52 = Some r52 /\
    _annuity_payment 1 r12 (25 * 12) = Some x /\
    monthly ps = round2 x /\
    (let lim := Z.max 1 (Z.min (Z.max 1 (Z.min 25 25)) 25) in
     let gen ppy r pay :=
       schedule_loop (Z.to_nat (lim * ppy + 2)) r pay (lim * ppy) 0 1 in
     sch = [("monthly", gen 12%Z r12 (monthly ps));
            ("semi-monthly", gen 24%Z r24 (semi_monthly ps));
            ("bi-weekly", gen 26%Z r26 (bi_weekly ps));
            ("weekly", gen 52%Z r52 (weekly ps));
            ("accelerated bi-weekly", gen 26%Z r26 (accel_bi_weekly ps));
            ("accelerated weekly", gen 52%Z r52 (accel_weekly ps))]%string) /\
    (forall name rows, In (name, rows) sch ->
       exists d, In d [monthly ps; semi_monthly ps; bi_weekly ps; weekly ps;
                       accel_bi_weekly ps; accel_weekly ps] /\
                 round2 d = d /\ pays_disclosed d rows).
Proof.
  destruct rate_zero_unit_loan_monthly as [sch [_ [Hs _]]].
  exists sch. split; [exact Hs|].
  exact (schedules_built_from_disclosed_payments (MortgagePayment_init 0 25 None) 1 None sch Hs).
Defined.

(** C2 (failing input): at a zero rate, principal 300000, 25-year
    amortization and a 5-year term, the monthly payment is 1000.00 and the
    balance stays far above zero, yet the monthly schedule has 62 rows, not
    [5 * 12 = 60]: the cap is [nmax + 2], and the last row is period 62 with
    ending balance 238000, not the end-of-term balance 240000. *)
Theorem term_limited_schedule_rows :
  exists sch rows,
    schedules (MortgagePayment_init 0 25 (Some 5%Z)) 300000 None = Some sch /\
    lookup_schedule "monthly" sch = Some rows /\
    List.length rows = 62%nat /\
    Period (last rows row0) = 62%Z /\
    Ending_Balance (last rows row0) = 238000.
Proof.
  set (m := MortgagePayment_init 0 25 (Some 5%Z)).
  assert (Hq : quoted_rate_percent m = 0) by reflexivity.
  assert (Ha : amort_years m <> 0%Z) by discriminate.
  destruct (schedules_monthly m 300000 None _ 0 0 0 0 (payments_rate_zero m 300000 Hq Ha))
    as [sch [Hs Hl]]; try (apply periodic_rate_zero; [exact Hq | discriminate]).
  exists sch. eexists. split; [exact Hs|]. split; [exact Hl|].
  cbv zeta. cbn [monthly].
  assert (Hpay : round2 (300000 / IZR (amort_years m * 12)) = 1000).
  { replace (300000 / IZR (amort_years m * 12)) with (IZR 1000)
      by (simpl; field). apply round2_IZR. }
  rewrite Hpay.
  rewrite (schedule_loop_rate_zero_cap _ 1000 300000 62); [| reflexivity | lra | reflexivity |].
  2:{ unfold eps. simpl INR. lra. }
  split; [apply rows_from_length|].
  split; [rewrite rows_from_last_period by lia; reflexivity|].
  rewrite rows_from_rate_zero_last_ending by (try lia; simpl INR; lra).
  replace (300000 - INR 62 * 1000) with (IZR 238000) by (simpl INR; ring).
  apply round2_IZR.
Qed.

Lemma round_half_even_tie_even (z : Z) :
  Z.even z = true -> round_half_even (IZR z + 1/2) = z.
Proof.
  intros He. unfold round_half_even.
  rewrite (Int_part_unique _ z) by lra.
  replace (IZR z + 1 / 2 - IZR z) with (1/2) by ring.
  destruct (Rlt_dec (1/2) (1/2)); [lra|].
  destruct (Rlt_dec (1/2) (1/2)); [lra|].
  now rewrite He.
Qed.

(** C5 (counterexample): zero rate, one year, principal 13.608: the
    unrounded monthly payment is 1.134, disclosed as 1.13; the accelerated
    bi-weekly amount is round(1.134 / 2, 2) = 0.57, while
    round(1.13 / 2, 2) = 0.56 (0.565 is a tie, rounded to even). *)
Lemma accelerated_not_from_rounded_monthly :
  exists ps,
    payments (MortgagePayment_init 0 1 None) (13608 / 1000) = Some ps /\
    monthly ps = 113 / 100 /\ accel_bi_weekly ps = 57 / 100 /\
    round2 (monthly ps / 2) = 56 / 100 /\
    accel_bi_weekly ps <> round2 (monthly ps / 2).
Proof.
  rewrite payments_rate_zero by (reflexivity || discriminate).
  eexists. split; [reflexivity|]. cbn [monthly accel_bi_weekly amort_years
                                         MortgagePayment_init].
  assert (Hm : round2 (13608 / 1000 / IZR (1 * 12)) = 113 / 100).
  { rewrite (round2_near _ 113); [reflexivity|]. simpl. lra. }
  assert (Ha : round2 (13608 / 1000 / IZR (1 * 12) / 2) = 57 / 100).
  { rewrite (round2_near _ 57); [reflexivity|]. simpl. lra. }
  assert (Ht : round2 (113 / 100 / 2) = 56 / 100).
  { unfold round2.
    replace (113 / 100 / 2 * 100) with (IZR 56 + 1/2) by (simpl; field).
    rewrite round_half_even_tie_even by reflexivity. reflexivity. }
  rewrite Hm, Ha, Ht. repeat split; try reflexivity. lra.
Qed.

(** C5 (amended): the accelerated amounts are [round(m / 2, 2)] and
    [round(m / 4, 2)] where [m] is the unrounded monthly annuity payment
    whose rounding is the disclosed monthly amount; they are fractions of
    the monthly payment, not annuities of their own. *)
Theorem accelerated_from_unrounded_monthly (self : MortgagePayment) (principal : R)
    (ps : PaymentSet) :
  payments self principal = Some ps ->
  exists r m,
    _periodic_rate self 12 = Some r /\
    _annuity_payment principal r (amort_years self * 12) = Some m /\
    monthly ps = round2 m /\
    accel_bi_weekly ps = round2 (m / 2) /\
    accel_weekly ps = round2 (m / 4).
Proof.
  intros H.
  destruct (payments_rounded self principal ps H) as [r [m [x2 [x3 [x4 [Hr [Hm ->]]]]]]].
  exists r, m. repeat split; assumption.
Qed.

Lemma accelerated_from_unrounded_monthly_witness :
  exists ps,
    payments (MortgagePayment_init 0 1 None) (13608 / 1000) = Some ps /\
    exists r m,
      _periodic_rate (MortgagePayment_init 0 1 None) 12 = Some r /\
      _annuity_payment (13608 / 1000) r (1 * 12) = Some m /\
      monthly ps = round2 m /\
      accel_bi_weekly ps = round2 (m / 2) /\
      accel_weekly ps = round2 (m / 4).
Proof.
  assert (H : payments (MortgagePayment_init 0 1 None) (13608 / 1000) <> None)
    by (rewrite payments_rate_zero by (reflexivity || discriminate); discriminate).
  destruct (payments (MortgagePayment_init 0 1 None) (13608 / 1000)) as [ps|] eqn:E;
    [|congruence].
  exists ps. split; [reflexivity|].
  exact (accelerated_from_unrounded_monthly (MortgagePayment_init 0 1 None) (13608 / 1000) ps E).
Defined.

(** C9 (counterexample): nothing is rejected.  A 30-year term on a 25-year
    amortization and a negative principal both give schedules, and the raw
    generator [_schedule] silently treats a 30-year limit as 25 years. *)
Lemma invalid_inputs_accepted :
  (exists sch, schedules (MortgagePayment_init 0 25 (Some 30%Z)) 1000 None = Some sch) /\
  (exists sch, schedules (MortgagePayment_init 0 25 None) (-1000) None = Some sch) /\
  (forall principal payment_amount,
     _schedule (MortgagePayment_init 0 25 None) principal 12 payment_amount 30 =
     _schedule (MortgagePayment_init 0 25 None) principal 12 payment_amount 25).
Proof.
  assert (Hq : forall t, quoted_rate_percent (MortgagePayment_init 0 25 t) <> -200)
    by (intros t; simpl; lra).
  split; [|split].
  - destruct (payments_defined (MortgagePayment_init 0 25 (Some 30%Z)) 1000 (Hq _)
                ltac:(discriminate)) as [ps Hp].
    destruct (schedules (MortgagePayment_init 0 25 (Some 30%Z)) 1000 None) as [sch|] eqn:E.
    + now exists sch.
    + apply schedules_none_iff in E. congruence.
  - destruct (payments_defined (MortgagePayment_init 0 25 None) (-1000) (Hq _)
                ltac:(discriminate)) as [ps Hp].
    destruct (schedules (MortgagePayment_init 0 25 None) (-1000) None) as [sch|] eqn:E.
    + now exists sch.
    + apply schedules_none_iff in E. congruence.
  - intros principal payment_amount. apply schedule_clamps.
Qed.

(** C9 (amended): no input is validated.  Unless the amortization is 0
    years (or the quoted rate is -200%), [schedules] returns its six
    schedules for any principal, any amortization and any term or years
    limit, including non-positive ones and terms above the amortization; an
    amortization of 0 years raises (ZeroDivisionError in [payments]); and
    both [schedules] and the raw generator [_schedule] clamp the years limit
    to [max(1, min(years_limit, amort_years))]. *)
Theorem inputs_not_validated (self : MortgagePayment) (principal : R) (years : option Z)
    (ppy : Z) (payment_amount : R) (y : Z) :
  quoted_rate_percent self <> -200 ->
  (amort_years self <> 0%Z -> exists sch, schedules self principal years = Some sch) /\
  (amort_years self = 0%Z -> schedules self principal years = None) /\
  schedules self principal (Some y) =
    schedules self principal (Some (Z.max 1 (Z.min y (amort_years self)))) /\
  _schedule self principal ppy payment_amount y =
    _schedule self principal ppy payment_amount (Z.max 1 (Z.min y (amort_years self))).
Proof.
  intros Hq. split; [|split; [|split]].
  - intros Ha. destruct (payments_defined self principal Hq Ha) as [ps Hp].
    destruct (schedules self principal years) as [sch|] eqn:E; [now exists sch|].
    apply schedules_none_iff in E. congruence.
  - intros Ha. apply schedules_none_iff. now apply payments_amort_zero.
  - apply schedules_clamps.
  - apply schedule_clamps.
Qed.

Lemma inputs_not_validated_witness :
  quoted_rate_percent (MortgagePayment_init 0 25 (Some 30%Z)) <> -200 /\
  ((25 <> 0)%Z -> exists sch, schedules (MortgagePayment_init 0 25 (Some 30%Z)) 1000 None
                               = Some sch) /\
  ((25 = 0)%Z -> schedules (MortgagePayment_init 0 25 (Some 30%Z)) 1000 None = None) /\
  schedules (MortgagePayment_init 0 25 (Some 30%Z)) 1000 (Some 30%Z) =
    schedules (MortgagePayment_init 0 25 (Some 30%Z)) 1000 (Some (Z.max 1 (Z.min 30 25))) /\
  _schedule (MortgagePayment_init 0 25 (Some 30%Z)) 1000 12 0 30 =
    _schedule (MortgagePayment_init 0 25 (Some 30%Z)) 1000 12 0 (Z.max 1 (Z.min 30 25)).
Proof.
  assert (Hq : quoted_rate_percent (MortgagePayment_init 0 25 (Some 30%Z)) <> -200)
    by (simpl; lra).
  split; [exact Hq|].
  exact (inputs_not_validated (MortgagePayment_init 0 25 (Some 30%Z)) 1000 None 12 0 30 Hq).
Defined.

(** C10 (counterexample): an amortization of 0 years makes the convenience
    call raise (division by zero in [payments]), whatever the years limit;
    so does a frequency of 0 in the raw generator. *)
Lemma zero_amortization_raises :
  schedules (MortgagePayment_init 0 0 None) 300000 (Some 5%Z) = None /\
  _schedule (MortgagePayment_init 5 25 None) 300000 0 1000 5 = None.
Proof.
  split.
  - apply schedules_none_iff. now apply payments_amort_zero.
  - reflexivity.
Qed.

(** C10 (amended): both [schedules] and [_schedule] replace the years
    limit by [max(1, min(years_limit, amort_years))]: a zero or negative
    limit gives the 1-year schedule and a limit above the amortization the
    full one.  The years limit never decides whether a call raises:
    [schedules] raises exactly when [payments] does (for instance with
    [amort_years = 0]), and [_schedule] exactly when the periodic rate does
    (for instance with [payments_per_year = 0]). *)
Theorem years_limit_clamped (self : MortgagePayment) (principal : R) (ppy : Z)
    (payment_amount : R) (y : Z) :
  _schedule self principal ppy payment_amount y =
    _schedule self principal ppy payment_amount (Z.max 1 (Z.min y (amort_years self))) /\
  schedules self principal (Some y) =
    schedules self principal (Some (Z.max 1 (Z.min y (amort_years self)))) /\
  ((y <= 0)%Z ->
     _schedule self principal ppy payment_amount y =
       _schedule self principal ppy payment_amount 1 /\
     schedules self principal (Some y) = schedules self principal (Some 1%Z)) /\
  ((1 <= amort_years self <= y)%Z ->
     _schedule self principal ppy payment_amount y =
       _schedule self principal ppy payment_amount (amort_years self) /\
     schedules self principal (Some y) = schedules self principal (Some (amort_years self))) /\
  (schedules self principal (Some y) = None <-> payments self principal = None) /\
  (_schedule self principal ppy payment_amount y = None <-> _periodic_rate self ppy = None) /\
  (amort_years self = 0%Z -> schedules self principal (Some y) = None) /\
  _schedule self principal 0 payment_amount y = None.
Proof.
  split; [apply schedule_clamps|]. split; [apply schedules_clamps|].
  split; [|split; [|split; [|split; [|split]]]].
  - intros Hy. rewrite schedule_clamps, schedules_clamps.
    rewrite (schedule_clamps self principal ppy payment_amount 1).
    rewrite (schedules_clamps self principal 1).
    replace (Z.max 1 (Z.min y (amort_years self))) with 1%Z by lia.
    replace (Z.max 1 (Z.min 1 (amort_years self))) with 1%Z by lia.
    split; reflexivity.
  - intros Hy. rewrite schedule_clamps, schedules_clamps.
    rewrite (schedule_clamps self principal ppy payment_amount (amort_years self)).
    rewrite (schedules_clamps self principal (amort_years self)).
    replace (Z.max 1 (Z.min y (amort_years self))) with (amort_years self) by lia.
    replace (Z.max 1 (Z.min (amort_years self) (amort_years self)))
      with (amort_years self) by lia.
    split; reflexivity.
  - apply schedules_none_iff.
  - unfold _schedule. destruct (_periodic_rate self ppy); split; congruence.
  - intros Ha. apply schedules_none_iff. now apply payments_amort_zero.
  - reflexivity.
Qed.




(** C1 (counterexample): the final balance of a full-amortization schedule
    need not be near zero.  At 0%, a principal of 1 over 25 years has a
    disclosed monthly payment of 0.00; the cap stops the schedule after 302
    rows with the ending balance still 1.  And the concrete figures are off:
    300000 at 5% over 25 years discloses 1744.81, not 1741.27 (+-0.01), and
    its monthly schedule has 301 rows, not 300, the 300th ending at 2.93. *)
Lemma full_term_final_balance_not_near_zero :
  (exists sch rows,
     schedules (MortgagePayment_init 0 25 None) 1 None = Some sch /\
     lookup_schedule "monthly" sch = Some rows /\
     List.length rows = 302%nat /\
     Ending_Balance (last rows row0) = 1 /\
     1 / 100 < Rabs (Ending_Balance (last rows row0))) /\
  (exists ps sch rows,
     payments loan_5pct 300000 = Some ps /\
     monthly ps = 174481 / 100 /\ 1 / 100 < Rabs (monthly ps - 174127 / 100) /\
     schedules loan_5pct 300000 None = Some sch /\
     lookup_schedule "monthly" sch = Some rows /\
     List.length rows = 301%nat /\
     Ending_Balance (nth 299 rows row0) = 293 / 100 /\
     1 / 100 < Rabs (Ending_Balance (nth 299 rows row0))).
Proof.
  split.
  - destruct rate_zero_unit_loan_monthly as (sch & rows & Hs & Hl & Hn & He).
    exists sch, rows. repeat split; try assumption.
    rewrite He, Rabs_R1. lra.
  - destruct loan_5pct_monthly as (ps & sch & rows & Hp & Hm & Hs & Hl & Hn & _ & He & _).
    exists ps, sch, rows. repeat split; try assumption.
    + rewrite Hm, Rabs_right; lra.
    + rewrite He, Rabs_right; lra.
Qed.

(** C1 (amended): over the full amortization ([years_limit] at least the
    amortization), with a non-negative periodic rate and a payment amount at
    least the unrounded annuity payment, the schedule of a principal above
    [eps] is non-empty, has at most [amortization_years * payments_per_year]
    rows, and its final ending balance is exactly 0.00. *)
Theorem full_amortization_pays_off (self : MortgagePayment) (principal : R) (ppy : Z)
    (payment_amount : R) (years_limit : Z) (i A : R) (rows : list Row) :
  (0 < ppy)%Z -> (0 < amort_years self)%Z -> (amort_years self <= years_limit)%Z ->
  _periodic_rate self ppy = Some i -> 0 <= i ->
  _annuity_payment principal i (amort_years self * ppy) = Some A -> A <= payment_amount ->
  eps < principal ->
  _schedule self principal ppy payment_amount years_limit = Some rows ->
  rows <> [] /\ (List.length rows <= Z.to_nat (amort_years self * ppy))%nat /\
  Ending_Balance (last rows row0) = 0.
Proof.
  intros Hppy Ham Hy Hr Hi HA Hle Hp Hs.
  unfold _schedule in Hs. rewrite Hr in Hs. injection Hs as <-.
  replace (Z.max 1 (Z.min years_limit (amort_years self))) with (amort_years self) by lia.
  set (N := (amort_years self * ppy)%Z) in *.
  assert (HN : (0 < N)%Z) by (unfold N; lia).
  assert (Hpay : 0 <= payment_amount).
  { destruct (Req_EM_T i 0) as [E|E].
    - subst i. rewrite annuity_payment_zero in HA by lia. injection HA as <-.
      assert (0 < IZR N) by (apply IZR_lt; lia).
      assert (0 <= principal / IZR N) by (unfold Rdiv; apply Rmult_le_pos; [unfold eps in Hp; lra | apply Rlt_le, Rinv_0_lt_compat; lra]).
      lra.
    - pose proof (annuity_clears principal i payment_amount A N HN Hi HA Hle) as Hc.
      destruct (Rle_dec 0 payment_amount) as [|Hneg]; [assumption|].
      exfalso.
      assert (Hm : forall k, principal <= Nat.iter k (fun c => (1 + i) * c - payment_amount)
                                         principal).
      { induction k as [|k IH]; [simpl; lra|]. rewrite Nat.iter_succ.
        set (c := Nat.iter k (fun c => (1 + i) * c - payment_amount) principal) in *.
        assert (0 <= i * c) by (apply Rmult_le_pos; unfold eps in Hp; lra).
        lra. }
      specialize (Hm (Z.to_nat N)). unfold eps in Hp. lra. }
  assert (Hn : bal_iter i payment_amount (Z.to_nat N) principal <= eps).
  { pose proof (bal_iter_le_unclamped i payment_amount principal (Z.to_nat N) Hi Hpay).
    rewrite Rmax_left in H by (apply annuity_clears with A; assumption).
    unfold eps. lra. }
  destruct (first_below (fun j => bal_iter i payment_amount j principal) _ Hn)
    as (m & Hm & Hbm & Hbj).
  cbv beta in Hbm, Hbj.
  assert (Hm0 : (0 < m)%nat).
  { destruct m as [|m]; [|lia]. simpl in Hbm. lra. }
  rewrite (schedule_loop_prefix i payment_amount N m); [| lia | lia | exact Hbj].
  rewrite schedule_loop_stop_bal by exact Hbm.
  rewrite app_nil_r.
  split; [|split].
  - intros E. apply (f_equal (@List.length Row)) in E.
    rewrite rows_from_length in E. simpl in E. lia.
  - rewrite rows_from_length. exact Hm.
  - rewrite rows_from_last, emit_Ending by exact Hm0.
    rewrite <- bal_iter_S_r. replace (S (m - 1)) with m by lia.
    pose proof (bal_iter_nonneg i payment_amount principal m ltac:(unfold eps in Hp; lra)).
    rewrite (round2_near _ 0); [lra|]. unfold eps in Hbm. lra.
Qed.

Lemma full_amortization_pays_off_witness :
  exists rows,
    _schedule (MortgagePayment_init 0 1 None) 12 12 1 1 = Some rows /\
    rows <> [] /\ (List.length rows <= Z.to_nat (1 * 12))%nat /\
    Ending_Balance (last rows row0) = 0.
Proof.
  set (m := MortgagePayment_init 0 1 None).
  assert (Hr : _periodic_rate m 12 = Some 0)
    by (apply periodic_rate_zero; [reflexivity | discriminate]).
  assert (HA : _annuity_payment 12 0 (amort_years m * 12) = Some (12 / IZR 12))
    by (apply annuity_payment_zero; discriminate).
  destruct (_schedule m 12 12 1 1) as [rows|] eqn:Hs.
  2:{ unfold _schedule in Hs. rewrite Hr in Hs. discriminate. }
  exists rows. split; [reflexivity|].
  exact (full_amortization_pays_off m 12 12 1 1 0 (12 / IZR 12) rows
           ltac:(reflexivity) ltac:(reflexivity) ltac:(simpl; lia) Hr ltac:(lra) HA
           ltac:(simpl; lra) ltac:(unfold eps; lra) Hs).
Defined.

(** * Further properties of the code *)

(** X1 ([_ear_from_semiannual]): the effective annual rate is never below
    the nominal rate [quoted_rate_percent / 100], and equals it only for a
    quoted rate of 0. *)
Theorem ear_at_least_nominal (self : MortgagePayment) :
  quoted_rate_percent self / 100 <= _ear_from_semiannual self /\
  (_ear_from_semiannual self = quoted_rate_percent self / 100 <->
   quoted_rate_percent self = 0).
Proof.
  unfold _ear_from_semiannual. set (q := quoted_rate_percent self).
  assert (E : (1 + q / 100 / 2) ^ 2 - 1 = q / 100 + q * q / 40000) by (simpl; field).
  rewrite E. split; [nra|]. split.
  - intros H. assert (Hq : q * q = 0) by lra.
    destruct (Rmult_integral q q Hq); assumption.
  - intros ->. field.
Qed.

(** X2 ([_annuity_payment]): for a periodic rate above -1 and a positive
    number of periods, the payment is defined and clears the loan exactly:
    [n] periods of [c -> (1 + r) c - payment] from the principal end at 0. *)
Theorem annuity_payment_amortizes (principal r : R) (n : Z) :
  -1 < r -> (0 < n)%Z ->
  exists A, _annuity_payment principal r n = Some A /\
    Nat.iter (Z.to_nat n) (fun c => (1 + r) * c - A) principal = 0.
Proof.
  intros Hr Hn.
  destruct (annuity_payment_defined principal r n Hr ltac:(lia)) as [A HA].
  exists A. split; [exact HA|].
  assert (HN : IZR n = INR (Z.to_nat n))
    by (rewrite INR_IZR_INZ, Z2Nat.id; [reflexivity | lia]).
  destruct (Req_EM_T r 0) as [->|Hr0].
  - rewrite annuity_payment_zero in HA by lia. injection HA as <-.
    rewrite unclamped_rate_zero, <- HN. field. apply not_0_IZR. lia.
  - apply annuity_payment_value in HA; [|exact Hr0|lra].
    rewrite HN, Rpower_Ropp, Rpower_pow in HA by lra.
    rewrite unclamped_closed by exact Hr0.
    assert (HQ1 : (1 + r) ^ Z.to_nat n <> 1).
    { intros E. apply Hr0.
      assert (H : Rpower (1 + r) (INR (Z.to_nat n)) = 1) by (rewrite Rpower_pow; lra).
      apply Rpower_eq_1 in H; [lra | lra |].
      rewrite <- HN. apply not_0_IZR. lia. }
    assert (HQ0 : (1 + r) ^ Z.to_nat n <> 0) by (apply pow_nonzero; lra).
    set (Q := (1 + r) ^ Z.to_nat n) in *.
    rewrite HA. field. split; [exact HQ0|]. split; [intros E; apply HQ1; lra | exact Hr0].
Qed.

Lemma annuity_payment_amortizes_witness :
  -1 < 0 /\ (0 < 12)%Z /\
  exists A, _annuity_payment 12 0 12 = Some A /\
    Nat.iter (Z.to_nat 12) (fun c => (1 + 0) * c - A) 12 = 0.
Proof.
  split; [lra|]. split; [reflexivity|].
  exact (annuity_payment_amortizes 12 0 12 ltac:(lra) ltac:(reflexivity)).
Defined.

(** X3 ([_schedule]): every row balances to within two cents:
    [Starting Balance + Interest - Payment - Ending Balance] is at most 0.02
    in absolute value (exactly 0 before the four roundings). *)
Theorem schedule_rows_balance (self : MortgagePayment) (principal : R) (ppy : Z)
    (payment_amount : R) (years_limit : Z) (rows : list Row) :
  _schedule self principal ppy payment_amount years_limit = Some rows ->
  forall r, In r rows ->
    Rabs (Starting_Balance r + Interest r - Payment r - Ending_Balance r) <= 2 / 100.
Proof.
  intros Hs r Hr. unfold _schedule in Hs.
  destruct (_periodic_rate self ppy) as [i|]; [|discriminate].
  injection Hs as <-.
  apply schedule_loop_In in Hr as [k [start [_ ->]]].
  pose proof (step_balances i payment_amount start) as Hb.
  destruct (step i payment_amount start) as [[[interest pc] pe] bal].
  cbn [emit Starting_Balance Interest Payment Ending_Balance].
  pose proof (round2_err start). pose proof (round2_err interest).
  pose proof (round2_err pe). pose proof (round2_err bal).
  apply Rabs_le. lra.
Qed.

Lemma schedule_rows_balance_witness :
  _schedule (MortgagePayment_init 0 25 None) 1 12 2 25 = Some [emit 1 1 (step 0 2 1)] /\
  In (emit 1 1 (step 0 2 1)) [emit 1 1 (step 0 2 1)] /\
  Rabs (Starting_Balance (emit 1 1 (step 0 2 1)) + Interest (emit 1 1 (step 0 2 1)) -
        Payment (emit 1 1 (step 0 2 1)) - Ending_Balance (emit 1 1 (step 0 2 1))) <= 2 / 100.
Proof.
  assert (Hin : In (emit 1 1 (step 0 2 1)) [emit 1 1 (step 0 2 1)]) by (left; reflexivity).
  split; [exact rate_zero_one_clamped_row|]. split; [exact Hin|].
  exact (schedule_rows_balance (MortgagePayment_init 0 25 None) 1 12 2 25
           [emit 1 1 (step 0 2 1)] rate_zero_one_clamped_row _ Hin).
Defined.

(** X4 ([_schedule]): negative amortization.  With a non-negative rate and
    a payment amount that does not exceed the first period's interest, the
    balance never falls: the loop always runs to its cap of [nmax + 2] rows
    and every row ends at or above its starting balance. *)
Theorem schedule_negative_amortization (self : MortgagePayment) (principal : R) (ppy : Z)
    (payment_amount : R) (years_limit : Z) (i : R) (rows : list Row) :
  (0 < ppy)%Z -> _periodic_rate self ppy = Some i -> 0 <= i ->
  eps < principal -> payment_amount <= i * principal ->
  _schedule self principal ppy payment_amount years_limit = Some rows ->
  List.length rows = Z.to_nat (Z.max 1 (Z.min years_limit (amort_years self)) * ppy + 2) /\
  (forall r, In r rows -> Starting_Balance r <= Ending_Balance r).
Proof.
  intros Hp Hr Hi Hb Hpay Hs. unfold _schedule in Hs. rewrite Hr in Hs.
  injection Hs as <-. cbv zeta.
  set (L := Z.max 1 (Z.min years_limit (amort_years self))).
  assert (HL : (1 <= L)%Z) by (unfold L; lia).
  set (n := Z.to_nat (L * ppy + 2)).
  unfold eps in Hb.
  assert (Hg : forall j, principal <= bal_iter i payment_amount j principal /\
                         payment_amount <= i * bal_iter i payment_amount j principal)
    by (intros j; apply bal_iter_grows; lra).
  rewrite (schedule_loop_prefix i payment_amount (L * ppy) n n 0 principal);
    [| lia | unfold n; rewrite Z2Nat.id by nia; lia |].
  2:{ intros j _. destruct (Hg j). unfold eps. lra. }
  rewrite Nat.sub_diag. cbn [schedule_loop]. rewrite app_nil_r.
  split; [apply rows_from_length|].
  intros r Hin. apply In_nth with (d := row0) in Hin as [j [Hj <-]].
  rewrite rows_from_length in Hj.
  rewrite rows_from_nth by exact Hj. rewrite emit_Starting, emit_Ending.
  apply round2_le. rewrite step_bal_max.
  destruct (Hg j) as [G1 G2].
  eapply Rle_trans; [|apply Rmax_r]. lra.
Qed.

Lemma schedule_negative_amortization_witness :
  exists rows,
    _schedule (MortgagePayment_init 0 25 None) 1 12 0 25 = Some rows /\
    List.length rows = Z.to_nat (Z.max 1 (Z.min 25 25) * 12 + 2) /\
    (forall r, In r rows -> Starting_Balance r <= Ending_Balance r).
Proof.
  assert (Hr : _periodic_rate (MortgagePayment_init 0 25 None) 12 = Some 0)
    by (apply periodic_rate_zero; [reflexivity | discriminate]).
  destruct (_schedule (MortgagePayment_init 0 25 None) 1 12 0 25) as [rows|] eqn:Hs.
  2:{ unfold _schedule in Hs. rewrite Hr in Hs. discriminate. }
  exists rows. split; [reflexivity|].
  exact (schedule_negative_amortization (MortgagePayment_init 0 25 None) 1 12 0 25 0 rows
           ltac:(reflexivity) Hr ltac:(lra) ltac:(unfold eps; lra) ltac:(lra) Hs).
Defined.

(** X5 ([_schedule]): a shorter years limit gives a prefix of the schedule
    for a longer one: the term schedule agrees row for row with the longer
    schedule and only stops earlier. *)
Theorem schedule_years_prefix (self : MortgagePayment) (principal : R) (ppy : Z)
    (payment_amount : R) (y1 y2 : Z) (rows1 rows2 : list Row) :
  (0 < ppy)%Z -> (y1 <= y2)%Z ->
  _schedule self principal ppy payment_amount y1 = Some rows1 ->
  _schedule self principal ppy payment_amount y2 = Some rows2 ->
  exists t, rows2 = app rows1 t.
Proof.
  intros Hp Hy H1 H2. unfold _schedule in H1, H2.
  destruct (_periodic_rate self ppy) as [i|]; [|discriminate].
  injection H1 as <-. injection H2 as <-.
  apply schedule_loop_cap_prefix; [|lia].
  apply Z.mul_le_mono_nonneg_r; lia.
Qed.

Lemma schedule_years_prefix_witness :
  exists rows1 rows2,
    _schedule (MortgagePayment_init 0 25 None) 1 12 0 1 = Some rows1 /\
    _schedule (MortgagePayment_init 0 25 None) 1 12 0 2 = Some rows2 /\
    exists t, rows2 = app rows1 t.
Proof.
  assert (Hr : _periodic_rate (MortgagePayment_init 0 25 None) 12 = Some 0)
    by (apply periodic_rate_zero; [reflexivity | discriminate]).
  destruct (_schedule (MortgagePayment_init 0 25 None) 1 12 0 1) as [rows1|] eqn:H1.
  2:{ unfold _schedule in H1. rewrite Hr in H1. discriminate. }
  destruct (_schedule (MortgagePayment_init 0 25 None) 1 12 0 2) as [rows2|] eqn:H2.
  2:{ unfold _schedule in H2. rewrite Hr in H2. discriminate. }
  exists rows1, rows2. split; [reflexivity|]. split; [reflexivity|].
  exact (schedule_years_prefix (MortgagePayment_init 0 25 None) 1 12 0 1 2 rows1 rows2
           ltac:(reflexivity) ltac:(lia) H1 H2).
Defined.

(** X6 ([run_mortgage] over [schedules] and [_schedule]): when the payment
    computation succeeds, the script's outstanding-balance lookup
    [schedules["monthly"]["Ending Balance"].iloc[-1]] raises exactly when the
    principal is at most 1e-6 (the monthly schedule is then empty). *)
Theorem run_mortgage_term_balance_raises (principal rate : R) (amort term : Z) :
  rate <> -200 -> amort <> 0%Z ->
  (run_mortgage_term_balance principal rate amort term = None <-> principal <= eps).
Proof.
  intros Hq Ha. unfold run_mortgage_term_balance. cbv zeta.
  set (m := MortgagePayment_init rate amort (Some term)).
  assert (Hq' : quoted_rate_percent m <> -200) by exact Hq.
  destruct (payments_defined m principal Hq' Ha) as [ps Hp].
  destruct (periodic_rate_gt m 12 Hq' ltac:(discriminate)) as [r12 [H12 _]].
  destruct (periodic_rate_gt m 24 Hq' ltac:(discriminate)) as [r24 [H24 _]].
  destruct (periodic_rate_gt m 26 Hq' ltac:(discriminate)) as [r26 [H26 _]].
  destruct (periodic_rate_gt m 52 Hq' ltac:(discriminate)) as [r52 [H52 _]].
  destruct (schedules_monthly m principal (Some term) ps r12 r24 r26 r52 Hp H12 H24 H26 H52)
    as [sch [Hs Hl]].
  rewrite Hp, Hs. unfold monthly_term_balance. rewrite Hl. cbv zeta.
  set (lim := Z.max 1 (Z.min (Z.max 1 (Z.min term (amort_years m))) (amort_years m))).
  assert (HL : (1 <= lim)%Z) by (unfold lim; lia).
  destruct (Z.to_nat (lim * 12 + 2)) as [|f] eqn:Ef; [lia|].
  cbn [schedule_loop].
  destruct (Rlt_dec eps principal) as [Hb|Hb].
  - replace (Z.ltb 0 (lim * 12 + 2)) with true by (symmetry; apply Z.ltb_lt; lia).
    split; [discriminate | lra].
  - split; [lra | reflexivity].
Qed.

Lemma run_mortgage_term_balance_raises_witness :
  0 <> -200 /\ 25%Z <> 0%Z /\
  (run_mortgage_term_balance 1 0 25 5 = None <-> 1 <= eps).
Proof.
  assert (H1 : (0 : R) <> -200) by lra.
  assert (H2 : 25%Z <> 0%Z) by discriminate.
  split; [exact H1|]. split; [exact H2|].
  exact (run_mortgage_term_balance_raises 1 0 25 5 H1 H2).
Defined.

(** X7. One monthly annuity payment equals two semi-monthly annuity
    payments, the first carried one semi-monthly period at the semi-monthly
    rate; likewise one bi-weekly payment and two weekly payments at the weekly
    rate. This holds for the unrounded payments that [payments] rounds. *)
Theorem payments_half_period_relation (self : MortgagePayment) (principal : R) (ps : PaymentSet) :
  payments self principal = Some ps ->
  exists r12 r24 r26 r52 x1 x2 x3 x4,
    _periodic_rate self 12 = Some r12 /\ _periodic_rate self 24 = Some r24 /\
    _periodic_rate self 26 = Some r26 /\ _periodic_rate self 52 = Some r52 /\
    _annuity_payment principal r12 (amort_years self * 12) = Some x1 /\
    _annuity_payment principal r24 (amort_years self * 24) = Some x2 /\
    _annuity_payment principal r26 (amort_years self * 26) = Some x3 /\
    _annuity_payment principal r52 (amort_years self * 52) = Some x4 /\
    monthly ps = round2 x1 /\ semi_monthly ps = round2 x2 /\
    bi_weekly ps = round2 x3 /\ weekly ps = round2 x4 /\
    x1 = x2 * (2 + r24) /\ x3 = x4 * (2 + r52).
Proof.
  intros Hp.
  destruct (Req_EM_T (quoted_rate_percent self) (-200)) as [Hq|Hq].
  - (* [1 + ear = 0]: all rates are -1 and all payments [-principal] *)
    assert (HE : 1 + _ear_from_semiannual self = 0)
      by (unfold _ear_from_semiannual; rewrite Hq; simpl; field).
    destruct (payments_full _ _ _ Hp)
      as (r12 & r24 & r26 & r52 & x1 & x2 & x3 & x4 &
          H12 & H24 & H26 & H52 & A1 & A2 & A3 & A4 & Hps).
    rewrite (periodic_rate_base_zero self 12 HE ltac:(lia)) in H12.
    rewrite (periodic_rate_base_zero self 24 HE ltac:(lia)) in H24.
    rewrite (periodic_rate_base_zero self 26 HE ltac:(lia)) in H26.
    rewrite (periodic_rate_base_zero self 52 HE ltac:(lia)) in H52.
    assert (r12 = -1) by congruence. assert (r24 = -1) by congruence.
    assert (r26 = -1) by congruence. assert (r52 = -1) by congruence.
    subst r12 r24 r26 r52.
    exists (-1), (-1), (-1), (-1), x1, x2, x3, x4.
    rewrite (periodic_rate_base_zero self 12 HE ltac:(lia)),
            (periodic_rate_base_zero self 24 HE ltac:(lia)),
            (periodic_rate_base_zero self 26 HE ltac:(lia)),
            (periodic_rate_base_zero self 52 HE ltac:(lia)).
    rewrite Hps. cbn [monthly semi_monthly bi_weekly weekly].
    do 12 (split; [first [assumption | reflexivity]|]).
    apply annuity_payment_minus_one in A1, A2, A3, A4.
    split; lra.
  - set (t := Rpower (1 + _ear_from_semiannual self) (1 / 312)).
    set (V := Rpower (1 + _ear_from_semiannual self) (- IZR (amort_years self))).
    destruct (payments_shape self principal ps t V Hq eq_refl eq_refl Hp)
      as (x1 & x2 & x3 & x4 & R12 & R24 & R26 & R52 & A1 & A2 & A3 & A4 & Hps & Ha & Z1 & Z2).
    exists (t ^ 26 - 1), (t ^ 13 - 1), (t ^ 12 - 1), (t ^ 6 - 1), x1, x2, x3, x4.
    rewrite Hps. cbn [monthly semi_monthly bi_weekly weekly].
    do 12 (split; [first [assumption | reflexivity]|]).
    destruct (Req_EM_T (1 + _ear_from_semiannual self) 1) as [HE|HE].
    + destruct (Z1 HE) as (Ht1 & -> & -> & -> & ->).
      rewrite Ht1, !pow1.
      rewrite !(div_mult_IZR principal (amort_years self)) by lia.
      assert (IZR (amort_years self) <> 0) by (apply not_0_IZR; exact Ha).
      split; field; assumption.
    + destruct (Z2 HE) as (HV & -> & -> & -> & ->).
      split; field; exact HV.
Qed.

Lemma payments_half_period_relation_witness :
  exists ps,
    payments (MortgagePayment_init 0 1 None) 12 = Some ps /\
    exists r12 r24 r26 r52 x1 x2 x3 x4,
      _periodic_rate (MortgagePayment_init 0 1 None) 12 = Some r12 /\
      _periodic_rate (MortgagePayment_init 0 1 None) 24 = Some r24 /\
      _periodic_rate (MortgagePayment_init 0 1 None) 26 = Some r26 /\
      _periodic_rate (MortgagePayment_init 0 1 None) 52 = Some r52 /\
      _annuity_payment 12 r12 (1 * 12) = Some x1 /\
      _annuity_payment 12 r24 (1 * 24) = Some x2 /\
      _annuity_payment 12 r26 (1 * 26) = Some x3 /\
      _annuity_payment 12 r52 (1 * 52) = Some x4 /\
      monthly ps = round2 x1 /\ semi_monthly ps = round2 x2 /\
      bi_weekly ps = round2 x3 /\ weekly ps = round2 x4 /\
      x1 = x2 * (2 + r24) /\ x3 = x4 * (2 + r52).
Proof.
  assert (Hp := payments_rate_zero (MortgagePayment_init 0 1 None) 12 eq_refl
                  ltac:(cbn; discriminate)).
  eexists. split; [exact Hp|].
  exact (payments_half_period_relation (MortgagePayment_init 0 1 None) 12 _ Hp).
Defined.

(** X8. For a non-negative quoted rate, a positive amortization and a
    non-negative principal, the accelerated bi-weekly payment is at least
    the bi-weekly and the semi-monthly payment, and the accelerated weekly
    payment is at least the weekly payment. *)
Theorem accelerated_at_least_regular (self : MortgagePayment) (principal : R) (ps : PaymentSet) :
  0 <= quoted_rate_percent self -> (0 < amort_years self)%Z -> 0 <= principal ->
  payments self principal = Some ps ->
  bi_weekly ps <= accel_bi_weekly ps /\ semi_monthly ps <= accel_bi_weekly ps /\
  weekly ps <= accel_weekly ps.
Proof.
  intros Hq Ha HP Hp.
  assert (Hq' : quoted_rate_percent self <> -200) by lra.
  set (t := Rpower (1 + _ear_from_semiannual self) (1 / 312)).
  set (V := Rpower (1 + _ear_from_semiannual self) (- IZR (amort_years self))).
  destruct (payments_shape self principal ps t V Hq' eq_refl eq_refl Hp)
    as (x1 & x2 & x3 & x4 & _ & _ & _ & _ & _ & _ & _ & _ & Hps & Ha0 & Z1 & Z2).
  rewrite Hps. cbn [semi_monthly bi_weekly weekly accel_bi_weekly accel_weekly].
  destruct (Req_EM_T (1 + _ear_from_semiannual self) 1) as [HE|HE].
  - destruct (Z1 HE) as (_ & -> & -> & -> & ->).
    rewrite !(div_mult_IZR principal (amort_years self)) by lia.
    assert (Hs : 0 <= principal / IZR (amort_years self)).
    { apply Rmult_le_pos; [exact HP|]. apply Rlt_le, Rinv_0_lt_compat, IZR_lt. exact Ha. }
    repeat split; apply round2_le; lra.
  - destruct (Z2 HE) as (_ & -> & -> & -> & ->).
    pose proof (one_plus_ear_ge_1 self Hq) as HE1.
    assert (Ht : 1 < t) by (apply root_gt_1; lra).
    assert (HV : 0 < V < 1).
    { apply root_lt_1; [lra|]. apply IZR_lt in Ha. lra. }
    destruct (pow_gaps t) as (G1 & G2 & G3); [lra|].
    repeat split; apply round2_le, annuity_scale_le; lra.
Qed.

Lemma accelerated_at_least_regular_witness :
  exists ps,
    0 <= quoted_rate_percent (MortgagePayment_init 0 1 None) /\
    (0 < amort_years (MortgagePayment_init 0 1 None))%Z /\ 0 <= 12 /\
    payments (MortgagePayment_init 0 1 None) 12 = Some ps /\
    bi_weekly ps <= accel_bi_weekly ps /\ semi_monthly ps <= accel_bi_weekly ps /\
    weekly ps <= accel_weekly ps.
Proof.
  assert (Hq : 0 <= quoted_rate_percent (MortgagePayment_init 0 1 None)) by (cbn; lra).
  assert (Ha : (0 < amort_years (MortgagePayment_init 0 1 None))%Z) by (cbn; lia).
  assert (HP : (0 : R) <= 12) by lra.
  assert (Hp := payments_rate_zero (MortgagePayment_init 0 1 None) 12 eq_refl
                  ltac:(cbn; discriminate)).
  eexists. split; [exact Hq|]. split; [exact Ha|]. split; [exact HP|]. split; [exact Hp|].
  exact (accelerated_at_least_regular (MortgagePayment_init 0 1 None) 12 _ Hq Ha HP Hp).
Defined.

(** X9. For a non-negative quoted rate, a positive amortization and a
    non-negative principal, the payments shrink with the frequency:
    0 <= weekly <= bi-weekly <= semi-monthly <= monthly. *)
Theorem payments_ordered_by_frequency (self : MortgagePayment) (principal : R) (ps : PaymentSet) :
  0 <= quoted_rate_percent self -> (0 < amort_years self)%Z -> 0 <= principal ->
  payments self principal = Some ps ->
  0 <= weekly ps /\ weekly ps <= bi_weekly ps /\ bi_weekly ps <= semi_monthly ps /\
  semi_monthly ps <= monthly ps.
Proof.
  intros Hq Ha HP Hp.
  assert (Hq' : quoted_rate_percent self <> -200) by lra.
  set (t := Rpower (1 + _ear_from_semiannual self) (1 / 312)).
  set (V := Rpower (1 + _ear_from_semiannual self) (- IZR (amort_years self))).
  destruct (payments_shape self principal ps t V Hq' eq_refl eq_refl Hp)
    as (x1 & x2 & x3 & x4 & _ & _ & _ & _ & _ & _ & _ & _ & Hps & Ha0 & Z1 & Z2).
  rewrite Hps. cbn [monthly semi_monthly bi_weekly weekly].
  destruct (Req_EM_T (1 + _ear_from_semiannual self) 1) as [HE|HE].
  - destruct (Z1 HE) as (_ & -> & -> & -> & ->).
    rewrite !(div_mult_IZR principal (amort_years self)) by lia.
    assert (Hs : 0 <= principal / IZR (amort_years self)).
    { apply Rmult_le_pos; [exact HP|]. apply Rlt_le, Rinv_0_lt_compat, IZR_lt. exact Ha. }
    split; [apply round2_nonneg; lra|].
    repeat split; apply round2_le; lra.
  - destruct (Z2 HE) as (_ & -> & -> & -> & ->).
    pose proof (one_plus_ear_ge_1 self Hq) as HE1.
    assert (Ht : 1 < t) by (apply root_gt_1; lra).
    assert (HV : 0 < V < 1).
    { apply root_lt_1; [lra|]. apply IZR_lt in Ha. lra. }
    assert (P6 : 1 <= t ^ 6) by (apply pow_R1_Rle; lra).
    assert (P612 : t ^ 6 <= t ^ 12) by (apply Rle_pow; [lra | lia]).
    assert (P1213 : t ^ 12 <= t ^ 13) by (apply Rle_pow; [lra | lia]).
    assert (P1326 : t ^ 13 <= t ^ 26) by (apply Rle_pow; [lra | lia]).
    split.
    { apply round2_nonneg. apply Rmult_le_pos; [exact HP|].
      apply Rmult_le_pos; [lra|]. apply Rlt_le, Rinv_0_lt_compat. lra. }
    repeat split; apply round2_le, annuity_mono; lra.
Qed.

Lemma payments_ordered_by_frequency_witness :
  exists ps,
    0 <= quoted_rate_percent (MortgagePayment_init 0 1 None) /\
    (0 < amort_years (MortgagePayment_init 0 1 None))%Z /\ 0 <= 12 /\
    payments (MortgagePayment_init 0 1 None) 12 = Some ps /\
    0 <= weekly ps /\ weekly ps <= bi_weekly ps /\ bi_weekly ps <= semi_monthly ps /\
    semi_monthly ps <= monthly ps.
Proof.
  assert (Hq : 0 <= quoted_rate_percent (MortgagePayment_init 0 1 None)) by (cbn; lra).
  assert (Ha : (0 < amort_years (MortgagePayment_init 0 1 None))%Z) by (cbn; lia).
  assert (HP : (0 : R) <= 12) by lra.
  assert (Hp := payments_rate_zero (MortgagePayment_init 0 1 None) 12 eq_refl
                  ltac:(cbn; discriminate)).
  eexists. split; [exact Hq|]. split; [exact Ha|]. split; [exact HP|]. split; [exact Hp|].
  exact (payments_ordered_by_frequency (MortgagePayment_init 0 1 None) 12 _ Hq Ha HP Hp).
Defined.

(** X10. For a non-negative quoted rate the periodic rates used by
    [payments] are defined, non-negative, and smaller for more frequent
    payments: 0 <= i52 <= i26 <= i24 <= i12. *)
Theorem periodic_rates_ordered (self : MortgagePayment) :
  0 <= quoted_rate_percent self ->
  exists i12 i24 i26 i52,
    _periodic_rate self 12 = Some i12 /\ _periodic_rate self 24 = Some i24 /\
    _periodic_rate self 26 = Some i26 /\ _periodic_rate self 52 = Some i52 /\
    0 <= i52 /\ i52 <= i26 /\ i26 <= i24 /\ i24 <= i12.
Proof.
  intros Hq. assert (Hq' : quoted_rate_percent self <> -200) by lra.
  pose proof (periodic_rate_root self 12 26 Hq' eq_refl) as R12.
  pose proof (periodic_rate_root self 24 13 Hq' eq_refl) as R24.
  pose proof (periodic_rate_root self 26 12 Hq' eq_refl) as R26.
  pose proof (periodic_rate_root self 52 6 Hq' eq_refl) as R52.
  set (t := Rpower (1 + _ear_from_semiannual self) (1 / 312)) in *.
  assert (Ht : 1 <= t).
  { pose proof (one_plus_ear_ge_1 self Hq) as HE1.
    destruct (Req_EM_T (1 + _ear_from_semiannual self) 1) as [HE|HE].
    - unfold t. rewrite HE, Rpower_base_1. lra.
    - apply Rlt_le, root_gt_1; lra. }
  exists (t ^ 26 - 1), (t ^ 13 - 1), (t ^ 12 - 1), (t ^ 6 - 1).
  split; [exact R12|]. split; [exact R24|]. split; [exact R26|]. split; [exact R52|].
  assert (P6 : 1 <= t ^ 6) by (apply pow_R1_Rle; lra).
  assert (P612 : t ^ 6 <= t ^ 12) by (apply Rle_pow; [lra | lia]).
  assert (P1213 : t ^ 12 <= t ^ 13) by (apply Rle_pow; [lra | lia]).
  assert (P1326 : t ^ 13 <= t ^ 26) by (apply Rle_pow; [lra | lia]).
  repeat split; lra.
Qed.

Lemma periodic_rates_ordered_witness :
  0 <= quoted_rate_percent (MortgagePayment_init 5 25 None) /\
  exists i12 i24 i26 i52,
    _periodic_rate (MortgagePayment_init 5 25 None) 12 = Some i12 /\
    _periodic_rate (MortgagePayment_init 5 25 None) 24 = Some i24 /\
    _periodic_rate (MortgagePayment_init 5 25 None) 26 = Some i26 /\
    _periodic_rate (MortgagePayment_init 5 25 None) 52 = Some i52 /\
    0 <= i52 /\ i52 <= i26 /\ i26 <= i24 /\ i24 <= i12.
Proof.
  assert (Hq : 0 <= quoted_rate_percent (MortgagePayment_init 5 25 None)) by (cbn; lra).
  split; [exact Hq|].
  exact (periodic_rates_ordered (MortgagePayment_init 5 25 None) Hq).
Defined.
